(** * solscript: the wallet manager's planning and merge policies

  A shallow embedding of [index.js] (the Solana wallet manager CLI) and the
  properties of its four policies: the wallet-index range parser
  ([parseWalletIndices]), the batch planner of [sendSolToAll] and
  [sendTokenToAll], the collection policy of [collectSol], and the import
  validation and merge of [importWallets].

  Conventions of the embedding.
  - A JavaScript string is the list of its UTF-16 code units ([JsString]).
  - Lamport amounts and wallet indices are exact integers ([Z]); the
    rounding of IEEE doubles above 2^53 is not modelled.
  - The SDK, the network and the codecs ([bs58], [base64-arraybuffer],
    [Keypair], [sendAndConfirmTransaction], ...) are external: they are
    section variables, a call that can throw returns a sum or an option,
    and a call on the network threads an abstract network state.  Every
    external call is taken as returning or throwing at the call site.
  - Console output is a list of structured lines. *)

From Stdlib Require Import ZArith NArith Lia String Ascii DecimalNat.
From stdpp Require Import base list sorting.
From Equations Require Import Equations.

Local Open Scope Z_scope.

(* ================================================================= *)
(** ** JavaScript strings and arrays *)

Module Js.

(** A string is its sequence of UTF-16 code units. *)
Definition JsString : Type := list N.

(** A literal of the source, character by character. *)
Fixpoint str (s : string) : JsString :=
  match s with
  | EmptyString => []
  | String c s' => N_of_ascii c :: str s'
  end.

(** [s.includes(c)] for a one-character needle [c]. *)
Definition includes (s : JsString) (c : N) : bool :=
  existsb (N.eqb c) s.

(** [s.split(c)] for a one-character separator [c]: the pieces between
    the occurrences of [c], always at least one piece. *)
Fixpoint split (sep : N) (s : JsString) : list JsString :=
  match s with
  | [] => [[]]
  | c :: s' =>
      if N.eqb c sep then [] :: split sep s'
      else match split sep s' with
           | piece :: pieces => (c :: piece) :: pieces
           | [] => [[c]]
           end
  end.

(** WhiteSpace and LineTerminator code units of ECMAScript. *)
Definition isWhiteSpace (c : N) : bool :=
  (N.leb 9 c && N.leb c 13)%N          (* TAB LF VT FF CR *)
  || N.eqb c 32 || N.eqb c 160         (* SP, NBSP *)
  || N.eqb c 5760                      (* U+1680 *)
  || (N.leb 8192 c && N.leb c 8202)%N  (* U+2000 .. U+200A *)
  || N.eqb c 8232 || N.eqb c 8233      (* LS, PS *)
  || N.eqb c 8239 || N.eqb c 8287      (* U+202F, U+205F *)
  || N.eqb c 12288 || N.eqb c 65279.   (* U+3000, U+FEFF *)

Fixpoint trimStart (s : JsString) : JsString :=
  match s with
  | c :: s' => if isWhiteSpace c then trimStart s' else s
  | [] => []
  end.

Definition trimEnd (s : JsString) : JsString :=
  reverse (trimStart (reverse s)).

(** [s.trim()] *)
Definition trim (s : JsString) : JsString := trimEnd (trimStart s).

(** The value of a code unit as a digit of the given radix. *)
Definition digitValue (radix : Z) (c : N) : option Z :=
  let v :=
    if (N.leb 48 c && N.leb c 57)%N then Some (Z.of_N c - 48)        (* 0-9 *)
    else if (N.leb 97 c && N.leb c 122)%N then Some (Z.of_N c - 87)  (* a-z *)
    else if (N.leb 65 c && N.leb c 90)%N then Some (Z.of_N c - 55)   (* A-Z *)
    else None in
  match v with
  | Some d => if d <? radix then Some d else None
  | None => None
  end.

(** The longest prefix of radix digits, read most significant first;
    [None] when there is no digit at all. *)
Fixpoint parseDigits (radix : Z) (acc : option Z) (s : JsString) : option Z :=
  match s with
  | [] => acc
  | c :: s' =>
      match digitValue radix c with
      | Some d => parseDigits radix (Some (default 0 acc * radix + d)) s'
      | None => acc
      end
  end.

(** [parseInt(s)] with the radix argument absent; [None] is NaN.
    Leading white space is skipped, a sign is read, a [0x]/[0X] prefix
    selects radix 16, and the digits stop at the first other character. *)
Definition parseInt (s : JsString) : option Z :=
  let inputString := trimStart s in
  let '(sign, rest) :=
    match inputString with
    | c :: rest' =>
        if N.eqb c 45 then (-1, rest')          (* "-" *)
        else if N.eqb c 43 then (1, rest')      (* "+" *)
        else (1, inputString)
    | [] => (1, inputString)
    end in
  let '(R, digits) :=
    match rest with
    | c0 :: cx :: rest' =>
        if N.eqb c0 48 && (N.eqb cx 120 || N.eqb cx 88)   (* "0x", "0X" *)
        then (16, rest')
        else (10, rest)
    | _ => (10, rest)
    end in
  match parseDigits R None digits with
  | Some mathInt => Some (sign * mathInt)
  | None => None
  end.

(** The decimal digits of a number, as characters. *)
Fixpoint uint_codes (d : Decimal.uint) : JsString :=
  match d with
  | Decimal.Nil => []
  | Decimal.D0 d' => 48%N :: uint_codes d'
  | Decimal.D1 d' => 49%N :: uint_codes d'
  | Decimal.D2 d' => 50%N :: uint_codes d'
  | Decimal.D3 d' => 51%N :: uint_codes d'
  | Decimal.D4 d' => 52%N :: uint_codes d'
  | Decimal.D5 d' => 53%N :: uint_codes d'
  | Decimal.D6 d' => 54%N :: uint_codes d'
  | Decimal.D7 d' => 55%N :: uint_codes d'
  | Decimal.D8 d' => 56%N :: uint_codes d'
  | Decimal.D9 d' => 57%N :: uint_codes d'
  end.

(** [`${n}`] for a non-negative integer [n]: its decimal digits. *)
Definition toString (n : nat) : JsString := uint_codes (Nat.to_uint n).

(** [arr.slice(start, end)] for in-range non-negative bounds; [end] is
    clamped to the length of the array. *)
Definition slice {A} (arr : list A) (start end_ : nat) : list A :=
  take (end_ - start) (drop start arr).

End Js.

Import Js.


(* ================================================================= *)
(** ** Wallet records *)

Module Store.

(** One record of [wallets.json]: [{ name, publicKey, privateKey }]. *)
Record Wallet : Type := {
  name : JsString;
  publicKey : JsString;
  privateKey : JsString
}.

#[global] Instance Wallet_eq_dec : EqDecision Wallet.
Proof. solve_decision. Defined.

(** [walletIndices.map(i => wallets[i - 1]).filter(Boolean)]: 1-based
    positions; a position outside the store reads [undefined] and is
    filtered out. *)
Definition walletAt (wallets : list Wallet) (i : Z) : option Wallet :=
  if i - 1 <? 0 then None else wallets !! Z.to_nat (i - 1).

(** [walletIndices.length > 0 ? ... : wallets] *)
Definition selectWallets (wallets : list Wallet) (walletIndices : list Z)
  : list Wallet :=
  match walletIndices with
  | [] => wallets
  | _ => omap (walletAt wallets) walletIndices
  end.

End Store.

Import Store.

(* ================================================================= *)
(** ** Batch planner ([sendSolToAll], [sendTokenToAll]) *)

Module Batch.

(** [ceil(n / m)] on naturals. *)
Definition ceil_div (n m : nat) : nat := ((n + m - 1) / m)%nat.

Section batching.
Context {A : Type}.
Variable MAX_WALLETS_PER_TX : nat.
Hypothesis MAX_positive : (0 < MAX_WALLETS_PER_TX)%nat.

(** The planning loop
    [for (let i = 0; i < targetWallets.length; i += MAX_WALLETS_PER_TX)
       walletBatches.push(targetWallets.slice(i, i + MAX_WALLETS_PER_TX));]
    entered at index [i] with the batches pushed so far.  The index grows
    by a positive step, so the distance to the length decreases. *)
Equations? batch_loop (targetWallets : list A) (i : nat)
    (walletBatches : list (list A)) : list (list A)
    by wf (length targetWallets - i)%nat lt :=
  batch_loop targetWallets i walletBatches
    with lt_dec i (length targetWallets) := {
    | left _ =>
        batch_loop targetWallets (i + MAX_WALLETS_PER_TX)
          (walletBatches ++ [slice targetWallets i (i + MAX_WALLETS_PER_TX)])
    | right _ => walletBatches }.
Proof. lia. Qed.

End batching.

(** [sendSolToAll]: [const MAX_WALLETS_PER_TX = 10; const walletBatches = [];]
    followed by the planning loop from [i = 0]. *)
Definition sendSolToAll_walletBatches {A} (targetWallets : list A)
  : list (list A) :=
  batch_loop 10 (Nat.lt_0_succ 9) targetWallets 0 [].

(** [sendTokenToAll]: the same loop with [MAX_WALLETS_PER_TX = 5]. *)
Definition sendTokenToAll_walletBatches {A} (targetWallets : list A)
  : list (list A) :=
  batch_loop 5 (Nat.lt_0_succ 4) targetWallets 0 [].

End Batch.

(* ================================================================= *)
(** ** Batched sending ([sendSolToAll], [sendTokenToAll]) *)

Module Send.

(** The part of [@solana/web3.js] and [@solana/spl-token] the two functions
    call.  A call that can throw returns [inl error]; a call on the network
    also returns the network's next state. *)
Class Sdk : Type := {
  PublicKey : Type;
  Keypair : Type;
  Signature : Type;
  Error : Type;
  Network : Type;
  Transaction : Type;
  Instruction : Type;
  TokenAccount : Type;
  Number : Type;
  times : Number -> Number -> Number;
  LAMPORTS_PER_SOL : Number;
  ten_pow_9 : Number;
  new_PublicKey : JsString -> Error + PublicKey;
  Keypair_publicKey : Keypair -> PublicKey;
  address : TokenAccount -> PublicKey;
  SystemProgram_transfer : PublicKey -> PublicKey -> Number -> Instruction;
  new_Transaction : Transaction;
  Transaction_add : Transaction -> Instruction -> Error + Transaction;
  sendAndConfirmTransaction :
    Transaction -> list Keypair -> Network -> Network * (Error + Signature);
  getOrCreateAssociatedTokenAccount :
    Keypair -> PublicKey -> PublicKey -> Network
    -> Network * (Error + TokenAccount);
  transfer :
    Keypair -> PublicKey -> PublicKey -> Keypair -> Number -> Network
    -> Network * (Error + Instruction)
}.

Inductive Asset : Type := SOL | tokens.

Section sending.
Context `{sdk : Sdk}.

(** The lines the two functions print. *)
Inductive Line : Type :=
| NoWalletsFound
| NoValidTargetWallets
| Sending (asset : Asset) (amount : Number) (wallets transactions : nat)
| BatchSent (asset : Asset) (batchNo total : nat) (amount : Number)
    (wallets : nat)
| TransactionSignature (signature : Signature)
| Recipient (walletName walletPublicKey : JsString)
| BatchError (asset : Asset) (batchNo : nat) (error : Error)
| Completed (asset : Asset) (amount : Number).

(** The state a run threads: the network and the console. *)
Record State : Type := { network : Network; console : list Line }.

(** A computation that may throw. *)
Definition M (A : Type) : Type := State -> State * (Error + A).

#[global] Instance M_ret : MRet M := fun A x s => (s, inr x).

#[global] Instance M_bind : MBind M := fun A B f m s =>
  match m s with
  | (s', inr x) => f x s'
  | (s', inl e) => (s', inl e)
  end.

(** [try { body } catch (error) { handler }] *)
Definition try_catch {A} (body : M A) (handler : Error -> M A) : M A :=
  fun s =>
    match body s with
    | (s', inl e) => handler e s'
    | r => r
    end.

(** A call that throws or returns without touching the network. *)
Definition call {A} (r : Error + A) : M A := fun s => (s, r).

(** An awaited call on the network. *)
Definition await {A} (f : Network -> Network * (Error + A)) : M A :=
  fun s =>
    let '(n, r) := f (network s) in
    ({| network := n; console := console s |}, r).

(** [console.log] / [console.error] *)
Definition console_log (l : Line) : M unit :=
  fun s => ({| network := network s; console := console s ++ [l] |}, inr tt).

(** [for (const x of xs) body], with the variables the body assigns as the
    accumulator. *)
Fixpoint for_of {A B} (xs : list A) (body : B -> A -> M B) (acc : B) : M B :=
  match xs with
  | [] => mret acc
  | x :: xs' => acc' ← body acc x; for_of xs' body acc'
  end.

(** [walletBatch.forEach(wallet => console.log(`  - ...`))] *)
Definition log_recipients (walletBatch : list Wallet) : M unit :=
  for_of walletBatch
    (fun _ wallet => console_log (Recipient (name wallet) (publicKey wallet))) tt.

(** The [try] block of one native batch. *)
Definition sendSol_try (mainWallet : Keypair) (amount amountLamports : Number)
    (total batchIndex : nat) (walletBatch : list Wallet) : M unit :=
  transaction ← for_of walletBatch
    (fun transaction wallet =>
       receiverPublicKey ← call (new_PublicKey (publicKey wallet));
       call (Transaction_add transaction
               (SystemProgram_transfer (Keypair_publicKey mainWallet)
                  receiverPublicKey amountLamports)))
    new_Transaction;
  signature ← await (sendAndConfirmTransaction transaction [mainWallet]);
  _ ← console_log (BatchSent SOL (batchIndex + 1) total amount (length walletBatch));
  _ ← console_log (TransactionSignature signature);
  log_recipients walletBatch.

(** [for (let batchIndex = 0; batchIndex < walletBatches.length; batchIndex++)]
    of [sendSolToAll], entered at [batchIndex] with the batches from there
    on; [total] is [walletBatches.length]. *)
Fixpoint sendSol_batches (mainWallet : Keypair) (amount amountLamports : Number)
    (total batchIndex : nat) (walletBatches : list (list Wallet)) : M unit :=
  match walletBatches with
  | [] => mret tt
  | walletBatch :: rest =>
      _ ← try_catch
            (sendSol_try mainWallet amount amountLamports total batchIndex walletBatch)
            (fun error => console_log (BatchError SOL (batchIndex + 1) error));
      sendSol_batches mainWallet amount amountLamports total (S batchIndex) rest
  end.

(** [sendSolToAll], from the planned batches to its last line. *)
Definition sendSolToAll_run (mainWallet : Keypair) (amount : Number)
    (walletBatches : list (list Wallet)) : M unit :=
  let amountLamports := times amount LAMPORTS_PER_SOL in
  _ ← sendSol_batches mainWallet amount amountLamports
        (length walletBatches) 0 walletBatches;
  console_log (Completed SOL amount).

(** [sendSolToAll(amount, walletIndices)] on the loaded store. *)
Definition sendSolToAll (mainWallet : Keypair) (wallets : list Wallet)
    (amount : Number) (walletIndices : list Z) : M unit :=
  match wallets with
  | [] => console_log NoWalletsFound
  | _ =>
      let targetWallets := selectWallets wallets walletIndices in
      match targetWallets with
      | [] => console_log NoValidTargetWallets
      | _ =>
          let walletBatches := Batch.sendSolToAll_walletBatches targetWallets in
          _ ← console_log (Sending SOL amount (length targetWallets)
                             (length walletBatches));
          sendSolToAll_run mainWallet amount walletBatches
      end
  end.

(** The [try] block of one token batch: first every destination account is
    resolved, then the transfers are added, then the transaction is sent.
    The source does not await [transfer(...)]: the call hands its result to
    [transaction.add].  Here the call returns or throws like any other, so
    the block covers every way the call can end at the call site. *)
Definition sendToken_try (mainWallet : Keypair) (tokenPublicKey : PublicKey)
    (sourceTokenAccount : TokenAccount) (amount : Number)
    (total batchIndex : nat) (walletBatch : list Wallet) : M unit :=
  destinationAccounts ← for_of walletBatch
    (fun destinationAccounts wallet =>
       receiverPublicKey ← call (new_PublicKey (publicKey wallet));
       destinationTokenAccount ← await
         (getOrCreateAssociatedTokenAccount mainWallet tokenPublicKey
            receiverPublicKey);
       mret (destinationAccounts ++ [(wallet, address destinationTokenAccount)]))
    [];
  transaction ← for_of destinationAccounts
    (fun transaction '(wallet, tokenAccount) =>
       instruction ← await
         (transfer mainWallet (address sourceTokenAccount) tokenAccount
            mainWallet (times amount ten_pow_9));
       call (Transaction_add transaction instruction))
    new_Transaction;
  signature ← await (sendAndConfirmTransaction transaction [mainWallet]);
  _ ← console_log (BatchSent tokens (batchIndex + 1) total amount (length walletBatch));
  _ ← console_log (TransactionSignature signature);
  log_recipients walletBatch.




(** The report of one batch on the console: its success lines, with the
    transaction's signature, or its error line, with the reason. *)
Definition batch_report (asset : Asset) (amount : Number) (total batchIndex : nat)
    (walletBatch : list Wallet) (lines : list Line) : Prop :=
  (exists signature,
      lines = BatchSent asset (batchIndex + 1) total amount (length walletBatch)
              :: TransactionSignature signature
              :: map (fun w => Recipient (name w) (publicKey w)) walletBatch)
  \/ (exists error, lines = [BatchError asset (batchIndex + 1) error]).

(** One report per batch, in order, the k-th for the k-th batch counted
    from [first]. *)
Definition reports_cover (asset : Asset) (amount : Number) (total first : nat)
    (walletBatches : list (list Wallet)) (reports : list (list Line)) : Prop :=
  length reports = length walletBatches
  /\ forall k walletBatch lines,
      walletBatches !! k = Some walletBatch ->
      reports !! k = Some lines ->
      batch_report asset amount total (first + k) walletBatch lines.

(** *** Notions used in the proofs *)

(** A computation that leaves the console as it found it. *)
Definition silent {A} (m : M A) : Prop :=
  forall s s' r, m s = (s', r) -> console s' = console s.

(** The tail every [try] block shares: once the transaction is built the
    block sends it and prints the batch's lines, or throws with the console
    untouched. *)
Definition send_and_report (asset : Asset) (mainWallet : Keypair)
    (amount : Number) (total batchIndex : nat) (walletBatch : list Wallet)
    (transaction : Transaction) : M unit :=
  signature ← await (sendAndConfirmTransaction transaction [mainWallet]);
  _ ← console_log (BatchSent asset (batchIndex + 1) total amount (length walletBatch));
  _ ← console_log (TransactionSignature signature);
  log_recipients walletBatch.

End sending.

(** A small network for running the functions: addresses are taken as they
    are, a transaction is the list of its recipients, and the network
    refuses a transaction that pays the address [bad]. *)
Definition toySdk : Sdk := {|
  PublicKey := JsString;
  Keypair := JsString;
  Signature := nat;
  Error := JsString;
  Network := nat;
  Transaction := list JsString;
  Instruction := JsString;
  TokenAccount := JsString;
  Number := Z;
  times := Z.mul;
  LAMPORTS_PER_SOL := 1000000000;
  ten_pow_9 := 1000000000;
  new_PublicKey := fun s => match s with [] => inl (str "Invalid public key input") | _ => inr s end;
  Keypair_publicKey := fun k => k;
  address := fun a => a;
  SystemProgram_transfer := fun _ to _ => to;
  new_Transaction := [];
  Transaction_add := fun t i => inr (t ++ [i]);
  sendAndConfirmTransaction := fun t _ n =>
    if bool_decide (str "bad" ∈ t)
    then (S n, inl (str "Transaction simulation failed"))
    else (S n, inr n);
  getOrCreateAssociatedTokenAccount := fun _ _ owner n => (n, inr owner);
  transfer := fun _ _ dst _ _ n => (n, inr dst)
|}.

End Send.

(* ================================================================= *)
(** ** Collection policy ([collectSol]) *)

Module Collect.

(** What [collectSol] decides for one wallet. *)
Inductive CollectionPlan : Type :=
| skip
| withdraw (transferAmount : Z).

(** The decision in the loop body of [collectSol], on the wallet's balance,
    the network's rent-exempt minimum, the fee estimate and the amount to
    leave, all in lamports:
    [const totalMinimumRequired = rentExemptBalance + transferFee + leaveAmountLamports;
     if (balance <= totalMinimumRequired) { ...; continue; }
     const transferAmount = balance - leaveAmountLamports - transferFee;] *)
Definition collectionPlan
    (balance leaveAmountLamports transferFee rentExemptBalance : Z)
  : CollectionPlan :=
  let totalMinimumRequired :=
    rentExemptBalance + transferFee + leaveAmountLamports in
  if balance <=? totalMinimumRequired then skip
  else
    let transferAmount := balance - leaveAmountLamports - transferFee in
    withdraw transferAmount.

(** [const transferFee = 5000;] *)
Definition transferFee : Z := 5000.

(** The decision with the fee of the source. *)
Definition collectSol_plan (balance leaveAmountLamports rentExemptBalance : Z)
  : CollectionPlan :=
  collectionPlan balance leaveAmountLamports transferFee rentExemptBalance.

(** The argument of [SystemProgram.transfer]. *)
Record TransferParams : Type := {
  fromPubkey : JsString;
  toPubkey : JsString;
  lamports : Z
}.

(** The transfer instruction [collectSol] builds for one wallet, if any:
    [SystemProgram.transfer({ fromPubkey: sourceKeypair.publicKey,
       toPubkey: mainWallet.publicKey, lamports: transferAmount })]. *)
Definition collectSol_transfer (sourcePublicKey mainPublicKey : JsString)
    (balance leaveAmountLamports rentExemptBalance : Z)
  : option TransferParams :=
  match collectSol_plan balance leaveAmountLamports rentExemptBalance with
  | skip => None
  | withdraw transferAmount =>
      Some {| fromPubkey := sourcePublicKey;
              toPubkey := mainPublicKey;
              lamports := transferAmount |}
  end.

End Collect.

(* ================================================================= *)
(** ** Wallet-index range parser ([parseWalletIndices]) *)

Module Selector.

(** The character codes of the source's literals. *)
Definition comma : N := 44.
Definition hyphen : N := 45.

(** [for (let i = start; i <= end; i++) { indices.push(i); }] entered at
    [i]. *)
Equations? range_loop (i end_ : Z) (indices : list Z) : list Z
    by wf (Z.to_nat (end_ - i + 1)) lt :=
  range_loop i end_ indices with Z_le_dec i end_ := {
    | left _ => range_loop (i + 1) end_ (indices ++ [i])
    | right _ => indices }.
Proof. lia. Qed.

(** The body of [for (const part of parts)]: a part with a hyphen is a
    range, whose first two pieces are its bounds; any other part is one
    index.  A bound or index that is NaN drops the part. *)
Definition parse_part (indices : list Z) (part : JsString) : list Z :=
  if includes part hyphen then
    match map (fun num => parseInt (trim num)) (split hyphen part) with
    | Some start :: Some end_ :: _ => range_loop start end_ indices
    | _ => indices
    end
  else
    match parseInt (trim part) with
    | Some index => indices ++ [index]
    | None => indices
    end.

(** [[...new Set(indices)]]: the distinct values in the order of their
    first occurrence. *)
Definition Set_values (indices : list Z) : list Z :=
  fold_left (fun seen i => if decide (i ∈ seen) then seen else seen ++ [i])
    indices [].

(** [.sort((a, b) => a - b)]: ascending numeric order. *)
Definition sort_ascending (l : list Z) : list Z := merge_sort Z.le l.

(** [parseWalletIndices(walletRangeStr)]; the option [--wallets] is absent
    ([undefined], here [None]) or a string. *)
Definition parseWalletIndices (walletRangeStr : option JsString) : list Z :=
  match walletRangeStr with
  | None | Some [] => []
  | Some s =>
      let parts := split comma s in
      let indices := fold_left parse_part parts [] in
      sort_ascending (Set_values indices)
  end.

(** The integers a token of the selector refers to: the token's own value
    when it is a single integer, every value from low to high when it is a
    range [low-high].  A token that is not numeric, or whose bounds are
    inverted, refers to nothing. *)
Inductive token_refers (token : JsString) (n : Z) : Prop :=
| refers_single :
    includes token hyphen = false ->
    parseInt (trim token) = Some n ->
    token_refers token n
| refers_range (low high : JsString) (more : list JsString) (a b : Z) :
    includes token hyphen = true ->
    split hyphen token = low :: high :: more ->
    parseInt (trim low) = Some a ->
    parseInt (trim high) = Some b ->
    a <= n <= b ->
    token_refers token n.

(** A decimal digit, as a character. *)
Definition is_digit (c : N) : Prop := (48 <= c <= 57)%N.

End Selector.

(* ================================================================= *)
(** ** Wallet creation and import ([createWallet], [importWallets]) *)

Module Importer.

(** The codecs and the key derivation [importWallets] calls.  [None] is a
    thrown exception.  [Keypair_fromSecretKey] gives the text of the public
    key of the keypair, [keypair.publicKey.toString()]. *)
Class Codec : Type := {
  Bytes : Type;
  bs58_decode : JsString -> option Bytes;
  bs58_encode : Bytes -> JsString;
  base64Decode : JsString -> option Bytes;
  Keypair_fromSecretKey : Bytes -> option JsString
}.

(** A record of the import file as [JSON.parse] returns it: an object whose
    fields [name], [publicKey] and [privateKey], when present, are
    strings. *)
Module Raw.
Record wallet : Type := {
  name : option JsString;
  publicKey : option JsString;
  privateKey : option JsString
}.
End Raw.

(** The value of a field when it is truthy: present and not the empty
    string. *)
Definition truthy (field : option JsString) : option JsString :=
  match field with
  | Some (c :: s) => Some (c :: s)
  | _ => None
  end.

Inductive Format : Type := standard | keyonly | unknown.

(** [const sampleWallet = importedWallets[0] || {};] and the two tests on
    it. *)
Definition detectFormat (importedWallets : list Raw.wallet) : Format :=
  let sampleWallet :=
    default {| Raw.name := None; Raw.publicKey := None; Raw.privateKey := None |}
      (head importedWallets) in
  match truthy (Raw.name sampleWallet), truthy (Raw.publicKey sampleWallet),
        truthy (Raw.privateKey sampleWallet) with
  | Some _, Some _, Some _ => standard
  | _, Some _, Some _ => keyonly
  | _, _, _ => unknown
  end.

(** The lines [importWallets] prints. *)
Inductive Line : Type :=
| DetectedFormat (format : Format)
| SkippingInvalidWallet (index : nat)
| UnknownWalletFormat (index : nat)
| ErrorConvertingPrivateKey (walletNo : nat)
| TryingPrivateKeyAsIs
| PublicKeyMismatch (walletName fileShows derived : JsString)
| FixingPublicKey (walletName : JsString)
| SkippingWallet
| InvalidPrivateKey (walletName : JsString)
| NoValidWallets
| ReplacedWallets (imported : nat)
| OverwritingName (walletName : JsString)
| SkippingDuplicateName (walletName : JsString)
| OverwritingPublicKey (walletPublicKey : JsString)
| SkippingDuplicatePublicKey (walletPublicKey : JsString)
| Imported (importCount total : nat).


Section importing.
Context `{codec : Codec}.

(** The characters that mark a base64 text: ["+"], ["/"] and ["="]. *)
Definition looks_base64 (privateKey : JsString) : bool :=
  includes privateKey 43 || includes privateKey 47 || includes privateKey 61.

(** The conversion of a [keyonly] record's private key: a base64 text is
    decoded and encoded in base58; when the conversion throws the key is
    kept as it is. *)
Definition convertPrivateKey (i : nat) (privateKey : JsString)
  : JsString * list Line :=
  if looks_base64 privateKey then
    match base64Decode privateKey with
    | Some privateKeyUint8Array => (bs58_encode privateKeyUint8Array, [])
    | None => (privateKey, [ErrorConvertingPrivateKey (i + 1); TryingPrivateKeyAsIs])
    end
  else (privateKey, []).

(** The first half of the loop body: the record at index [i] put in the
    store's shape, or left out with a line. *)
Definition shapeWallet (format : Format) (i : nat) (wallet : Raw.wallet)
  : option Wallet * list Line :=
  match format with
  | standard =>
      match truthy (Raw.name wallet), truthy (Raw.publicKey wallet),
            truthy (Raw.privateKey wallet) with
      | Some name_, Some publicKey_, Some privateKey_ =>
          (Some {| name := name_; publicKey := publicKey_;
                   privateKey := privateKey_ |}, [])
      | _, _, _ => (None, [SkippingInvalidWallet i])
      end
  | keyonly =>
      match truthy (Raw.publicKey wallet), truthy (Raw.privateKey wallet) with
      | Some publicKey_, Some privateKey_ =>
          let name_ :=
            default (str "imported_wallet" ++ toString (i + 1))
              (truthy (Raw.name wallet)) in
          let '(privateKeyBase58, lines) := convertPrivateKey i privateKey_ in
          (Some {| name := name_; publicKey := publicKey_;
                   privateKey := privateKeyBase58 |}, lines)
      | _, _ => (None, [SkippingInvalidWallet i])
      end
  | unknown => (None, [UnknownWalletFormat i])
  end.

(** The second half of the loop body, [// Verify the keypair is valid]:
    the key is decoded, the public key is derived from it and compared with
    the record's. *)
Definition verifyWallet (fixPublicKeys : bool) (processedWallet : Wallet)
  : option Wallet * list Line :=
  match bs58_decode (privateKey processedWallet) with
  | None => (None, [InvalidPrivateKey (name processedWallet)])
  | Some privateKeyBuffer =>
      match Keypair_fromSecretKey privateKeyBuffer with
      | None => (None, [InvalidPrivateKey (name processedWallet)])
      | Some derived =>
          if bool_decide (derived <> publicKey processedWallet) then
            let warning :=
              PublicKeyMismatch (name processedWallet)
                (publicKey processedWallet) derived in
            if fixPublicKeys then
              (Some {| name := name processedWallet; publicKey := derived;
                       privateKey := privateKey processedWallet |},
               [warning; FixingPublicKey (name processedWallet)])
            else (None, [warning; SkippingWallet])
          else (Some processedWallet, [])
      end
  end.

(** The loop body on the record at index [i]: the wallet pushed, if any,
    and the lines printed. *)
Definition processWallet (format : Format) (fixPublicKeys : bool) (i : nat)
    (wallet : Raw.wallet) : option Wallet * list Line :=
  match shapeWallet format i wallet with
  | (None, lines) => (None, lines)
  | (Some processedWallet, lines) =>
      let '(verified, lines') := verifyWallet fixPublicKeys processedWallet in
      (verified, lines ++ lines')
  end.

(** [for (let i = 0; i < importedWallets.length; i++)], entered at index
    [i] with the records from there on. *)
Fixpoint process_loop (format : Format) (fixPublicKeys : bool) (i : nat)
    (importedWallets : list Raw.wallet)
    (processedWallets : list Wallet) (out : list Line)
  : list Wallet * list Line :=
  match importedWallets with
  | [] => (processedWallets, out)
  | wallet :: rest =>
      let '(pushed, lines) := processWallet format fixPublicKeys i wallet in
      process_loop format fixPublicKeys (S i) rest
        (processedWallets ++ option_list pushed) (out ++ lines)
  end.

(** Format detection and the processing loop. *)
Definition processWallets (importedWallets : list Raw.wallet)
    (fixPublicKeys : bool) : list Wallet * list Line :=
  let format := detectFormat importedWallets in
  process_loop format fixPublicKeys 0 importedWallets [] [DetectedFormat format].

(** *** The vocabulary of the validation and shape claims *)



(** The key text of a shaped record decodes to a keypair whose address
    is [derived]. *)
Definition derives (processedWallet : Wallet) (derived : JsString) : Prop :=
  exists privateKeyBuffer,
    bs58_decode (privateKey processedWallet) = Some privateKeyBuffer
    /\ Keypair_fromSecretKey privateKeyBuffer = Some derived.


(** The records of a file are accepted whatever their shape and the
    encoding of their secret: a record with an address and a secret, named
    or not, whose secret decodes as base58, or as base64 to bytes that
    base58 carries, to the key of its address, ends up stored under that
    address with the key in base58. *)
Definition accepts_mixed_shapes_and_encodings : Prop :=
  forall (importedWallets : list Raw.wallet) (fixPublicKeys : bool) (i : nat)
         (wallet : Raw.wallet) (publicKey_ privateKey_ : JsString)
         (key : Bytes),
    importedWallets !! i = Some wallet ->
    truthy (Raw.publicKey wallet) = Some publicKey_ ->
    truthy (Raw.privateKey wallet) = Some privateKey_ ->
    (bs58_decode privateKey_ = Some key
     \/ (base64Decode privateKey_ = Some key
         /\ bs58_decode (bs58_encode key) = Some key)) ->
    Keypair_fromSecretKey key = Some publicKey_ ->
    exists stored,
      stored ∈ (processWallets importedWallets fixPublicKeys).1
      /\ publicKey stored = publicKey_
      /\ bs58_decode (privateKey stored) = Some key.

End importing.

(** Small codecs for running the importer: a key is its own base58 text,
    provided the text is not empty and has none of the base64 marks; a
    base64 text is its key followed by ["="]; the address of a key is the
    key after the letter ["A"]. *)
Definition toyCodec : Codec := {|
  Bytes := JsString;
  bs58_decode := fun s =>
    match s with
    | [] => None
    | _ => if includes s 43 || includes s 47 || includes s 61 then None
           else Some s
    end;
  bs58_encode := fun b => b;
  base64Decode := fun s => Some (filter (fun c => c <> 61%N) s);
  Keypair_fromSecretKey := fun b =>
    match b with
    | [] => None
    | _ => Some (65%N :: b)
    end
|}.

(** [arr.findIndex(p)]; [None] is -1. *)
Definition findIndex {A} (p : A -> Prop) `{forall x, Decision (p x)}
    (arr : list A) : option nat :=
  fst <$> list_find p arr.

(** The body of [for (const wallet of processedWallets)] in the merge, on
    the merged list, the import count and the lines so far. *)
Definition merge_step (overwrite : bool)
    (state : list Wallet * nat * list Line) (wallet : Wallet)
  : list Wallet * nat * list Line :=
  let '(mergedWallets, importCount, out) := state in
  let duplicateNameIndex :=
    findIndex (fun w => name w = name wallet) mergedWallets in
  let duplicateKeyIndex :=
    findIndex (fun w => publicKey w = publicKey wallet) mergedWallets in
  match duplicateNameIndex with
  | Some i =>
      if overwrite then
        (<[i := wallet]> mergedWallets, S importCount,
         out ++ [OverwritingName (name wallet)])
      else
        (mergedWallets, importCount, out ++ [SkippingDuplicateName (name wallet)])
  | None =>
      match duplicateKeyIndex with
      | Some j =>
          if overwrite then
            (<[j := wallet]> mergedWallets, S importCount,
             out ++ [OverwritingPublicKey (publicKey wallet)])
          else
            (mergedWallets, importCount,
             out ++ [SkippingDuplicatePublicKey (publicKey wallet)])
      | None => (mergedWallets ++ [wallet], S importCount, out)
      end
  end.

(** [const mergedWallets = [...existingWallets]; let importCount = 0;] and
    the merge loop. *)
Definition mergeWallets (overwrite : bool)
    (existingWallets processedWallets : list Wallet)
  : list Wallet * nat * list Line :=
  fold_left (merge_step overwrite) processedWallets (existingWallets, 0%nat, []).

(** The merge as the policy words it, on the merged list and the count so
    far, one incoming record after the other: a record that shares its name
    with a merged record replaces the first such record when overwrite is
    on, and is left out when it is off; else a record that shares its
    address with a merged record is treated the same way; else the record
    is appended.  The count grows with each record that replaces or is
    appended. *)
Inductive merges (overwrite : bool)
  : list Wallet -> nat -> list Wallet -> list Wallet -> nat -> Prop :=
| merges_done merged count :
    merges overwrite merged count [] merged count
| merges_overwrite_name merged count wallet incoming before same after
    merged' count' :
    overwrite = true ->
    merged = before ++ same :: after ->
    name same = name wallet ->
    Forall (fun w => name w <> name wallet) before ->
    merges overwrite (before ++ wallet :: after) (S count) incoming
      merged' count' ->
    merges overwrite merged count (wallet :: incoming) merged' count'
| merges_skip_name merged count wallet incoming merged' count' :
    overwrite = false ->
    Exists (fun w => name w = name wallet) merged ->
    merges overwrite merged count incoming merged' count' ->
    merges overwrite merged count (wallet :: incoming) merged' count'
| merges_overwrite_address merged count wallet incoming before same after
    merged' count' :
    overwrite = true ->
    Forall (fun w => name w <> name wallet) merged ->
    merged = before ++ same :: after ->
    publicKey same = publicKey wallet ->
    Forall (fun w => publicKey w <> publicKey wallet) before ->
    merges overwrite (before ++ wallet :: after) (S count) incoming
      merged' count' ->
    merges overwrite merged count (wallet :: incoming) merged' count'
| merges_skip_address merged count wallet incoming merged' count' :
    overwrite = false ->
    Forall (fun w => name w <> name wallet) merged ->
    Exists (fun w => publicKey w = publicKey wallet) merged ->
    merges overwrite merged count incoming merged' count' ->
    merges overwrite merged count (wallet :: incoming) merged' count'
| merges_append merged count wallet incoming merged' count' :
    Forall (fun w => name w <> name wallet) merged ->
    Forall (fun w => publicKey w <> publicKey wallet) merged ->
    merges overwrite (merged ++ [wallet]) (S count) incoming merged' count' ->
    merges overwrite merged count (wallet :: incoming) merged' count'.

(** A line of the merge that reports a record left out. *)
Definition reports_duplicate (l : Line) : bool :=
  match l with
  | SkippingDuplicateName _ | SkippingDuplicatePublicKey _ => true
  | _ => false
  end.


(** [importWallets] from the parsed file on: the store it leaves and the
    lines it prints.  [keepExisting] is the answer to the question asked
    when the store is not empty. *)
Definition importWallets `{codec : Codec} (importedWallets : list Raw.wallet)
    (overwrite fixPublicKeys : bool) (existingWallets : list Wallet)
    (keepExisting : bool) : list Wallet * list Line :=
  let '(processedWallets, out) := processWallets importedWallets fixPublicKeys in
  match processedWallets with
  | [] => (existingWallets, out ++ [NoValidWallets])
  | _ =>
      if negb (bool_decide (existingWallets = [])) && negb keepExisting then
        (processedWallets, out ++ [ReplacedWallets (length processedWallets)])
      else
        let '(mergedWallets, importCount, lines) :=
          mergeWallets overwrite existingWallets processedWallets in
        (mergedWallets,
         out ++ lines ++ [Imported importCount (length mergedWallets)])
  end.

(** [createWallet(name)] on the loaded store, with the generated keypair's
    public key and base58 private key: the wallet returned, if any, and the
    store saved. *)
Definition createWallet (name_ : JsString) (keypair : JsString * JsString)
    (wallets : list Wallet) : option Wallet * list Wallet :=
  if existsb (fun w => bool_decide (name w = name_)) wallets then (None, wallets)
  else
    let wallet := {| name := name_; publicKey := fst keypair;
                     privateKey := snd keypair |} in
    (Some wallet, wallets ++ [wallet]).

(** The loop of [createWallets]: [count] wallets named
    [`${prefix}${existingCount + i + 1}`], each created on the store the
    previous one left; [generate i] is the keypair generated at step [i]. *)
Fixpoint createWallets_loop (prefix : JsString) (existingCount : nat)
    (generate : nat -> JsString * JsString) (i count : nat)
    (wallets createdWallets : list Wallet) : list Wallet * list Wallet :=
  match count with
  | O => (wallets, createdWallets)
  | S count' =>
      let walletNumber := (existingCount + i + 1)%nat in
      let name_ := prefix ++ toString walletNumber in
      let '(wallet, wallets') := createWallet name_ (generate i) wallets in
      createWallets_loop prefix existingCount generate (S i) count' wallets'
        (createdWallets ++ option_list wallet)
  end.

(** [createWallets(count, { prefix })] once the existing wallets are kept
    or deleted: the store and the wallets created. *)
Definition createWallets (prefix : JsString)
    (generate : nat -> JsString * JsString) (count : nat)
    (wallets : list Wallet) (keepExisting : bool)
  : list Wallet * list Wallet :=
  let wallets := if keepExisting then wallets else [] in
  createWallets_loop prefix (length wallets) generate 0 count wallets [].

(** *** Notions used in the proofs *)

(** The cases of one step of the merge: the merged list it leaves, whether
    the record is counted, and the lines it prints. *)
Inductive merge_case (overwrite : bool) (merged : list Wallet) (wallet : Wallet)
  : list Wallet -> bool -> list Line -> Prop :=
| case_overwrite_name before same after :
    overwrite = true ->
    merged = before ++ same :: after ->
    name same = name wallet ->
    Forall (fun w => name w <> name wallet) before ->
    merge_case overwrite merged wallet (before ++ wallet :: after) true
      [OverwritingName (name wallet)]
| case_skip_name :
    overwrite = false ->
    Exists (fun w => name w = name wallet) merged ->
    merge_case overwrite merged wallet merged false
      [SkippingDuplicateName (name wallet)]
| case_overwrite_address before same after :
    overwrite = true ->
    Forall (fun w => name w <> name wallet) merged ->
    merged = before ++ same :: after ->
    publicKey same = publicKey wallet ->
    Forall (fun w => publicKey w <> publicKey wallet) before ->
    merge_case overwrite merged wallet (before ++ wallet :: after) true
      [OverwritingPublicKey (publicKey wallet)]
| case_skip_address :
    overwrite = false ->
    Forall (fun w => name w <> name wallet) merged ->
    Exists (fun w => publicKey w = publicKey wallet) merged ->
    merge_case overwrite merged wallet merged false
      [SkippingDuplicatePublicKey (publicKey wallet)]
| case_append :
    Forall (fun w => name w <> name wallet) merged ->
    Forall (fun w => publicKey w <> publicKey wallet) merged ->
    merge_case overwrite merged wallet (merged ++ [wallet]) true [].

(** The number of records the merge reports as left out. *)
Definition skipped (out : list Line) : nat :=
  length (filter (fun l => reports_duplicate l = true) out).

(** *** Sample stores and files *)

Definition alice : Wallet :=
  {| name := str "alice"; publicKey := str "A1"; privateKey := str "1" |}.
Definition bob : Wallet :=
  {| name := str "bob"; publicKey := str "A2"; privateKey := str "2" |}.
Definition alice_again : Wallet :=
  {| name := str "alice"; publicKey := str "A3"; privateKey := str "3" |}.
Definition carol : Wallet :=
  {| name := str "carol"; publicKey := str "A4"; privateKey := str "4" |}.

(** A file of three named records on the small codecs: the second stores
    an address that its key does not derive. *)
Definition raw (name_ publicKey_ privateKey_ : option JsString) : Raw.wallet :=
  {| Raw.name := name_; Raw.publicKey := publicKey_;
     Raw.privateKey := privateKey_ |}.

Definition raw_alice : Raw.wallet :=
  raw (Some (str "alice")) (Some (str "A1")) (Some (str "1")).
Definition raw_bob_wrong_address : Raw.wallet :=
  raw (Some (str "bob")) (Some (str "B9")) (Some (str "2")).
Definition raw_carol : Raw.wallet :=
  raw (Some (str "carol")) (Some (str "A4")) (Some (str "4")).
Definition raw_unnamed : Raw.wallet :=
  raw None (Some (str "A2")) (Some (str "2")).

(** A file without names on the small codecs: the first record's key is
    base58, the second's is base64. *)
Definition raw_key_base58 : Raw.wallet :=
  raw None (Some (str "A1")) (Some (str "1")).
Definition raw_key_base64 : Raw.wallet :=
  raw None (Some (str "A2")) (Some (str "2==")).

Definition raw_alice_again : Raw.wallet :=
  raw (Some (str "alice")) (Some (str "A3")) (Some (str "3")).
Definition raw_without_secret : Raw.wallet :=
  raw (Some (str "dave")) (Some (str "A5")) None.

End Importer.

(* ================================================================= *)
(** ** Notions for the statements on the merge *)

Module MergeNotions.
Import Importer.

(** A record that a merged record already stands for: one with its name or
    with its address. *)
Definition covered (merged : list Wallet) (wallet : Wallet) : Prop :=
  Exists (fun w => name w = name wallet \/ publicKey w = publicKey wallet) merged.

(** A line of the merge that reports a stored record replaced. *)
Definition reports_overwrite (l : Line) : bool :=
  match l with
  | OverwritingName _ | OverwritingPublicKey _ => true
  | _ => false
  end.

(** The number of records the merge reports as replaced. *)
Definition overwritten (out : list Line) : nat :=
  length (filter (fun l => reports_overwrite l = true) out).

End MergeNotions.

(* ================================================================= *)
(** ** Notions for the statements on wallet creation *)

Module CreateNotions.
Import Importer.


End CreateNotions.

(* ================================================================= *)
(** ** Collecting SOL wallet by wallet ([collectSol]) *)

Module CollectRun.
Import Collect.

(** The part of the SDK [collectSol] calls.  A call that can throw returns
    [inl error]; a call on the network also returns the network's next
    state.  Balances and the rent-exempt minimum are lamport counts. *)
Class Sdk : Type := {
  PublicKey : Type;
  Keypair : Type;
  Bytes : Type;
  Signature : Type;
  Error : Type;
  Network : Type;
  bs58_decode : JsString -> Error + Bytes;
  Keypair_fromSecretKey : Bytes -> Error + Keypair;
  Keypair_publicKey : Keypair -> PublicKey;
  getBalance : PublicKey -> Network -> Network * (Error + Z);
  getMinimumBalanceForRentExemption :
    Z -> Network -> Network * (Error + Z);
  sendAndConfirmTransaction :
    list (PublicKey * PublicKey * Z) -> list Keypair -> Network
    -> Network * (Error + Signature)
}.

Section collecting.
Context `{sdk : Sdk}.

(** A transaction: the transfers added to it, each
    [SystemProgram.transfer({ fromPubkey, toPubkey, lamports })]. *)
Definition Transaction : Type := list (PublicKey * PublicKey * Z).

(** The lines [collectSol] prints. *)
Inductive Line : Type :=
| NoWalletsFound
| NoValidSourceWallets
| Collecting (wallets : nat)
| SkippingInsufficientBalance (walletName : JsString) (balance : Z)
| Collected (transferAmount : Z) (walletName : JsString)
| TransactionSignature (signature : Signature)
| ErrorCollecting (walletName : JsString) (error : Error).

(** The state a run threads: the network, the console, and the
    transactions handed to [sendAndConfirmTransaction] so far, kept for the
    statements about what is submitted. *)
Record State : Type := {
  network : Network;
  console : list Line;
  submitted : list Transaction
}.

(** A computation that may throw. *)
Definition M (A : Type) : Type := State -> State * (Error + A).

#[global] Instance M_ret : MRet M := fun A x s => (s, inr x).

#[global] Instance M_bind : MBind M := fun A B f m s =>
  match m s with
  | (s', inr x) => f x s'
  | (s', inl e) => (s', inl e)
  end.

(** [try { body } catch (error) { handler }] *)
Definition try_catch {A} (body : M A) (handler : Error -> M A) : M A :=
  fun s =>
    match body s with
    | (s', inl e) => handler e s'
    | r => r
    end.

(** A call that throws or returns without touching the network. *)
Definition call {A} (r : Error + A) : M A := fun s => (s, r).

(** An awaited call on the network. *)
Definition await {A} (f : Network -> Network * (Error + A)) : M A :=
  fun s =>
    let '(n, r) := f (network s) in
    ({| network := n; console := console s; submitted := submitted s |}, r).

(** [await sendAndConfirmTransaction(connection, transaction, signers)] *)
Definition submit (transaction : Transaction) (signers : list Keypair)
  : M Signature :=
  fun s =>
    let '(n, r) := sendAndConfirmTransaction transaction signers (network s) in
    ({| network := n; console := console s;
        submitted := submitted s ++ [transaction] |}, r).

(** [console.log] / [console.error] *)
Definition console_log (l : Line) : M unit :=
  fun s => ({| network := network s; console := console s ++ [l];
               submitted := submitted s |}, inr tt).

(** The [try] block of the loop of [collectSol] for one wallet. *)
Definition collectSol_try (mainWallet : Keypair) (leaveAmountLamports : Z)
    (wallet : Wallet) : M unit :=
  privateKey_ ← call (bs58_decode (privateKey wallet));
  sourceKeypair ← call (Keypair_fromSecretKey privateKey_);
  balance ← await (getBalance (Keypair_publicKey sourceKeypair));
  rentExemptBalance ← await (getMinimumBalanceForRentExemption 0);
  match collectSol_plan balance leaveAmountLamports rentExemptBalance with
  | skip => console_log (SkippingInsufficientBalance (name wallet) balance)
  | withdraw transferAmount =>
      signature ← submit
        [(Keypair_publicKey sourceKeypair, Keypair_publicKey mainWallet,
          transferAmount)]
        [sourceKeypair];
      _ ← console_log (Collected transferAmount (name wallet));
      console_log (TransactionSignature signature)
  end.

(** [for (const wallet of sourceWallets) { try { ... } catch (error) { ... } }] *)
Fixpoint collectSol_loop (mainWallet : Keypair) (leaveAmountLamports : Z)
    (sourceWallets : list Wallet) : M unit :=
  match sourceWallets with
  | [] => mret tt
  | wallet :: rest =>
      _ ← try_catch (collectSol_try mainWallet leaveAmountLamports wallet)
            (fun error => console_log (ErrorCollecting (name wallet) error));
      collectSol_loop mainWallet leaveAmountLamports rest
  end.

(** [collectSol(walletIndices, leaveAmount)] on the loaded store, with
    [leaveAmountLamports = leaveAmount * LAMPORTS_PER_SOL]. *)
Definition collectSol (mainWallet : Keypair) (wallets : list Wallet)
    (walletIndices : list Z) (leaveAmountLamports : Z) : M unit :=
  match wallets with
  | [] => console_log NoWalletsFound
  | _ =>
      let sourceWallets := selectWallets wallets walletIndices in
      match sourceWallets with
      | [] => console_log NoValidSourceWallets
      | _ =>
          _ ← console_log (Collecting (length sourceWallets));
          collectSol_loop mainWallet leaveAmountLamports sourceWallets
      end
  end.

(** *** The vocabulary of the statements *)

(** What the console shows for one wallet: it was skipped, it was
    collected, or collecting from it failed. *)
Definition wallet_report (wallet : Wallet) (lines : list Line) : Prop :=
  (exists balance, lines = [SkippingInsufficientBalance (name wallet) balance])
  \/ (exists transferAmount signature,
         lines = [Collected transferAmount (name wallet);
                  TransactionSignature signature])
  \/ (exists error, lines = [ErrorCollecting (name wallet) error]).



End collecting.

(** A small network for running [collectSol]: a key is its own text, the
    balance of an account is the number its address parses to, the
    rent-exempt minimum is 890880, and every transaction is confirmed. *)
Definition toySdk : Sdk := {|
  PublicKey := JsString;
  Keypair := JsString;
  Bytes := JsString;
  Signature := nat;
  Error := JsString;
  Network := nat;
  bs58_decode := fun s =>
    match s with [] => inl (str "Non-base58 character") | _ => inr s end;
  Keypair_fromSecretKey := fun b => inr b;
  Keypair_publicKey := fun k => k;
  getBalance := fun a n => (n, inr (default 0 (parseInt a)));
  getMinimumBalanceForRentExemption := fun _ n => (n, inr 890880);
  sendAndConfirmTransaction := fun _ _ n => (S n, inr n)
|}.

End CollectRun.

(* ================================================================= *)
(** ** The commands that work wallet by wallet
       ([sendSol], [sendToken], [collectTokens]) *)

Module PerWallet.

(** The part of the SDK the three commands call.  A call that can throw
    returns [inl error]; a call on the network also returns the network's
    next state.  A token account of the parsed RPC answer is its address
    and the text of its amount. *)
Class Sdk : Type := {
  PublicKey : Type;
  Keypair : Type;
  Bytes : Type;
  Signature : Type;
  Error : Type;
  Network : Type;
  Number : Type;
  Transaction : Type;
  Instruction : Type;
  TokenAccount : Type;
  times : Number -> Number -> Number;
  LAMPORTS_PER_SOL : Number;
  ten_pow_9 : Number;
  new_PublicKey : JsString -> Error + PublicKey;
  bs58_decode : JsString -> Error + Bytes;
  Keypair_fromSecretKey : Bytes -> Error + Keypair;
  Keypair_publicKey : Keypair -> PublicKey;
  address : TokenAccount -> PublicKey;
  SystemProgram_transfer : PublicKey -> PublicKey -> Number -> Instruction;
  new_Transaction : Transaction;
  Transaction_add : Transaction -> Instruction -> Error + Transaction;
  sendAndConfirmTransaction :
    Transaction -> list Keypair -> Network -> Network * (Error + Signature);
  getOrCreateAssociatedTokenAccount :
    Keypair -> PublicKey -> PublicKey -> Network
    -> Network * (Error + TokenAccount);
  getParsedTokenAccountsByOwner :
    PublicKey -> PublicKey -> Network
    -> Network * (Error + list (PublicKey * JsString));
  transfer :
    Keypair -> PublicKey -> PublicKey -> Keypair -> Number + JsString
    -> Network -> Network * (Error + Signature)
}.

Section commands.
Context `{sdk : Sdk}.

(** The lines the three commands print. *)
Inductive Line : Type :=
| NoWalletsFound
| NoValidTargetWallets
| NoValidSourceWallets
| SendingSol (amount : Number) (wallets : nat)
| SentSol (amount : Number) (walletName walletPublicKey : JsString)
| ErrorSendingSol (walletName : JsString) (error : Error)
| SendingTokens (amount : Number) (wallets : nat)
| SentTokens (amount : Number) (walletName walletPublicKey : JsString)
| ErrorSendingTokens (walletName : JsString) (error : Error)
| CollectingTokens (wallets : nat)
| SkippingNoTokenAccount (walletName : JsString)
| SkippingZeroTokenBalance (walletName : JsString)
| CollectedTokens (balance walletName : JsString)
| ErrorCollectingTokens (walletName : JsString) (error : Error)
| TransactionSignature (signature : Signature).

(** A call of [transfer]: the source and destination token accounts and
    the amount. *)
Definition TransferCall : Type := PublicKey * PublicKey * (Number + JsString).

(** The state a run threads: the network, the console, and the calls of
    [transfer] made so far, kept for the statements about what is
    transferred. *)
Record State : Type := {
  network : Network;
  console : list Line;
  transfers : list TransferCall
}.

(** A computation that may throw. *)
Definition M (A : Type) : Type := State -> State * (Error + A).

#[global] Instance M_ret : MRet M := fun A x s => (s, inr x).

#[global] Instance M_bind : MBind M := fun A B f m s =>
  match m s with
  | (s', inr x) => f x s'
  | (s', inl e) => (s', inl e)
  end.

(** [try { body } catch (error) { handler }] *)
Definition try_catch {A} (body : M A) (handler : Error -> M A) : M A :=
  fun s =>
    match body s with
    | (s', inl e) => handler e s'
    | r => r
    end.

(** A call that throws or returns without touching the network. *)
Definition call {A} (r : Error + A) : M A := fun s => (s, r).

(** An awaited call on the network. *)
Definition await {A} (f : Network -> Network * (Error + A)) : M A :=
  fun s =>
    let '(n, r) := f (network s) in
    ({| network := n; console := console s; transfers := transfers s |}, r).

(** [await transfer(connection, payer, source, destination, owner, amount)] *)
Definition await_transfer (payer : Keypair) (source destination : PublicKey)
    (owner : Keypair) (amount : Number + JsString) : M Signature :=
  fun s =>
    let '(n, r) := transfer payer source destination owner amount (network s) in
    ({| network := n; console := console s;
        transfers := transfers s ++ [(source, destination, amount)] |}, r).

(** [console.log] / [console.error] *)
Definition console_log (l : Line) : M unit :=
  fun s => ({| network := network s; console := console s ++ [l];
               transfers := transfers s |}, inr tt).

(** [for (const wallet of wallets) { try { body } catch (error) { handler } }] *)
Fixpoint for_each_guarded (wallets : list Wallet) (body : Wallet -> M unit)
    (handler : Wallet -> Error -> M unit) : M unit :=
  match wallets with
  | [] => mret tt
  | wallet :: rest =>
      _ ← try_catch (body wallet) (handler wallet);
      for_each_guarded rest body handler
  end.

(** *** [sendSol] *)

(** The [try] block for one wallet. *)
Definition sendSol_try (mainWallet : Keypair) (amount amountLamports : Number)
    (wallet : Wallet) : M unit :=
  receiverPublicKey ← call (new_PublicKey (publicKey wallet));
  transaction ← call
    (Transaction_add new_Transaction
       (SystemProgram_transfer (Keypair_publicKey mainWallet) receiverPublicKey
          amountLamports));
  signature ← await (sendAndConfirmTransaction transaction [mainWallet]);
  _ ← console_log (SentSol amount (name wallet) (publicKey wallet));
  console_log (TransactionSignature signature).

(** [sendSol(amount, walletIndices)] on the loaded store. *)
Definition sendSol (mainWallet : Keypair) (wallets : list Wallet)
    (amount : Number) (walletIndices : list Z) : M unit :=
  match wallets with
  | [] => console_log NoWalletsFound
  | _ =>
      let targetWallets := selectWallets wallets walletIndices in
      match targetWallets with
      | [] => console_log NoValidTargetWallets
      | _ =>
          let amountLamports := times amount LAMPORTS_PER_SOL in
          _ ← console_log (SendingSol amount (length targetWallets));
          for_each_guarded targetWallets
            (sendSol_try mainWallet amount amountLamports)
            (fun wallet error =>
               console_log (ErrorSendingSol (name wallet) error))
      end
  end.

(** *** [sendToken] *)

(** The [try] block for one wallet. *)
Definition sendToken_try (mainWallet : Keypair) (tokenPublicKey : PublicKey)
    (sourceTokenAccount : TokenAccount) (amount : Number) (wallet : Wallet)
  : M unit :=
  receiverPublicKey ← call (new_PublicKey (publicKey wallet));
  destinationTokenAccount ← await
    (getOrCreateAssociatedTokenAccount mainWallet tokenPublicKey
       receiverPublicKey);
  signature ← await_transfer mainWallet (address sourceTokenAccount)
    (address destinationTokenAccount) mainWallet
    (inl (times amount ten_pow_9));
  _ ← console_log (SentTokens amount (name wallet) (publicKey wallet));
  console_log (TransactionSignature signature).


(** *** [collectTokens] *)

(** [parseInt(balance) === 0] *)
Definition parses_to_zero (balance : JsString) : bool :=
  match parseInt balance with
  | Some 0 => true
  | _ => false
  end.

(** The [try] block for one wallet: the first token account of the wallet
    for the mint, if any, is emptied into the main wallet's account. *)
Definition collectTokens_try (tokenPublicKey : PublicKey)
    (destinationTokenAccount : TokenAccount) (wallet : Wallet) : M unit :=
  privateKey_ ← call (bs58_decode (privateKey wallet));
  sourceKeypair ← call (Keypair_fromSecretKey privateKey_);
  tokenAccounts ← await
    (getParsedTokenAccountsByOwner (Keypair_publicKey sourceKeypair)
       tokenPublicKey);
  match tokenAccounts with
  | [] => console_log (SkippingNoTokenAccount (name wallet))
  | (sourceTokenAccount, balance) :: _ =>
      if parses_to_zero balance then
        console_log (SkippingZeroTokenBalance (name wallet))
      else
        signature ← await_transfer sourceKeypair sourceTokenAccount
          (address destinationTokenAccount) sourceKeypair (inr balance);
        _ ← console_log (CollectedTokens balance (name wallet));
        console_log (TransactionSignature signature)
  end.

(** [collectTokens(tokenAddress, walletIndices)] on the loaded store.  The
    token address and the destination account are resolved before the
    loop, outside every [try]. *)
Definition collectTokens (mainWallet : Keypair) (wallets : list Wallet)
    (tokenAddress : JsString) (walletIndices : list Z) : M unit :=
  match wallets with
  | [] => console_log NoWalletsFound
  | _ =>
      let sourceWallets := selectWallets wallets walletIndices in
      match sourceWallets with
      | [] => console_log NoValidSourceWallets
      | _ =>
          tokenPublicKey ← call (new_PublicKey tokenAddress);
          destinationTokenAccount ← await
            (getOrCreateAssociatedTokenAccount mainWallet tokenPublicKey
               (Keypair_publicKey mainWallet));
          _ ← console_log (CollectingTokens (length sourceWallets));
          for_each_guarded sourceWallets
            (collectTokens_try tokenPublicKey destinationTokenAccount)
            (fun wallet error =>
               console_log (ErrorCollectingTokens (name wallet) error))
      end
  end.

(** *** The vocabulary of the statements *)

(** What the console shows for one target wallet of [sendSol]. *)
Definition sendSol_report (amount : Number) (wallet : Wallet)
    (lines : list Line) : Prop :=
  (exists signature,
      lines = [SentSol amount (name wallet) (publicKey wallet);
               TransactionSignature signature])
  \/ (exists error, lines = [ErrorSendingSol (name wallet) error]).




End commands.

(** A small network for running the commands: keys and addresses are
    their own text, an owner whose address reads as a number holds one
    token account with that amount and any other owner holds none, and
    every transfer is confirmed. *)
Definition toySdk : Sdk := {|
  PublicKey := JsString;
  Keypair := JsString;
  Bytes := JsString;
  Signature := nat;
  Error := JsString;
  Network := nat;
  Number := Z;
  Transaction := list JsString;
  Instruction := JsString;
  TokenAccount := JsString;
  times := Z.mul;
  LAMPORTS_PER_SOL := 1000000000;
  ten_pow_9 := 1000000000;
  new_PublicKey := fun s =>
    match s with [] => inl (str "Invalid public key input") | _ => inr s end;
  bs58_decode := fun s =>
    match s with [] => inl (str "Non-base58 character") | _ => inr s end;
  Keypair_fromSecretKey := fun b => inr b;
  Keypair_publicKey := fun k => k;
  address := fun a => a;
  SystemProgram_transfer := fun _ to _ => to;
  new_Transaction := [];
  Transaction_add := fun t i => inr (t ++ [i]);
  sendAndConfirmTransaction := fun _ _ n => (S n, inr n);
  getOrCreateAssociatedTokenAccount := fun _ _ owner n => (n, inr owner);
  getParsedTokenAccountsByOwner := fun owner _ n =>
    (n, inr match parseInt owner with
            | Some _ => [(owner, owner)]
            | None => []
            end);
  transfer := fun _ _ _ _ _ n => (S n, inr n)
|}.

End PerWallet.

(* ================================================================= *)
(** * Properties *)

(* ================================================================= *)
(** ** The batch planner is a lossless, order-preserving cover *)

Module BatchFacts.
Import Batch.

Section batching.
Context {A : Type}.
Variable MAX : nat.
Hypothesis MAX_positive : (0 < MAX)%nat.

Lemma ceil_div_step (d : nat) :
  (0 < d)%nat -> ceil_div d MAX = S (ceil_div (d - MAX) MAX).
Proof.
  intros Hd. unfold ceil_div.
  destruct (le_lt_dec d MAX) as [Hle|Hgt].
  - replace (d - MAX)%nat with 0%nat by lia.
    rewrite (Nat.div_small (0 + _ - 1)) by lia.
    symmetry. apply (Nat.div_unique _ _ 1 (d - 1)); lia.
  - replace (d + MAX - 1)%nat
      with ((d - MAX + MAX - 1) + 1 * MAX)%nat by lia.
    rewrite Nat.div_add by lia. lia.
Qed.

Lemma slice_length (l : list A) (i : nat) :
  length (slice l i (i + MAX)) = Nat.min MAX (length l - i).
Proof. unfold slice. rewrite length_take, length_drop. f_equal. lia. Qed.

Lemma slice_drop (l : list A) (i : nat) :
  slice l i (i + MAX) ++ drop (i + MAX) l = drop i l.
Proof.
  unfold slice. replace (i + MAX - i)%nat with MAX by lia.
  rewrite <- drop_drop. apply take_drop.
Qed.

(** What the loop adds from index [i] on: batches that cover the rest of
    the list in order, [ceil] of the rest over the maximum many, each
    non-empty and within the maximum, with the sizes in closed form. *)
Lemma batch_loop_spec (l : list A) (i : nat) (wb : list (list A)) :
  exists bs,
    batch_loop MAX MAX_positive l i wb = wb ++ bs
    /\ concat bs = drop i l
    /\ length bs = ceil_div (length l - i) MAX
    /\ Forall (fun b => (0 < length b <= MAX)%nat) bs
    /\ map length bs
       = map (fun k => Nat.min MAX (length l - (i + k * MAX)))
             (seq 0 (length bs)).
Proof.
  funelim (batch_loop MAX MAX_positive l i wb); clear Heq.
  - destruct H as (bs & Hbs & Hcat & Hlen & Hall & Hsz).
    exists (slice targetWallets i (i + MAX) :: bs).
    repeat split.
    + rewrite Hbs, <- app_assoc. reflexivity.
    + simpl. rewrite Hcat. apply slice_drop.
    + simpl. rewrite Hlen.
      rewrite (ceil_div_step (length targetWallets - i)) by lia.
      do 2 f_equal. lia.
    + constructor; [rewrite slice_length; lia | exact Hall].
    + simpl. rewrite slice_length. f_equal; [f_equal; lia|].
      rewrite Hsz at 1. rewrite <- seq_shift, map_map.
      apply map_ext. intros k. f_equal. lia.
  - exists []. rewrite app_nil_r.
    repeat split; try constructor.
    + simpl. symmetry. apply drop_ge. lia.
    + simpl. replace (length targetWallets - i)%nat with 0%nat by lia.
      unfold ceil_div. symmetry. apply Nat.div_small. lia.
Qed.

Lemma walletBatches_spec (l : list A) :
  concat (batch_loop MAX MAX_positive l 0 []) = l
  /\ length (batch_loop MAX MAX_positive l 0 []) = ceil_div (length l) MAX
  /\ Forall (fun b => (0 < length b <= MAX)%nat)
       (batch_loop MAX MAX_positive l 0 [])
  /\ map length (batch_loop MAX MAX_positive l 0 [])
     = map (fun k => Nat.min MAX (length l - k * MAX))
           (seq 0 (ceil_div (length l) MAX)).
Proof.
  destruct (batch_loop_spec l 0 []) as (bs & -> & Hcat & Hlen & Hall & Hsz).
  simpl. rewrite Nat.sub_0_r in Hlen.
  repeat split; [exact Hcat | exact Hlen | exact Hall |].
  rewrite Hsz, Hlen. reflexivity.
Qed.

End batching.

(** C1. For every ordered list of N target wallets the planner yields
    ceil(N/max) contiguous batches (max 10 for native transfers, 5 for
    token transfers), each non-empty and within the maximum, whose
    concatenation is the input list in its original order; on 23 wallets
    the native planner yields batches of sizes 10, 10 and 3. *)
Theorem batch_partition_lossless_ordered_cover :
  forall (A : Type) (targetWallets : list A),
    (concat (sendSolToAll_walletBatches targetWallets) = targetWallets
     /\ length (sendSolToAll_walletBatches targetWallets)
        = ceil_div (length targetWallets) 10
     /\ Forall (fun b => (0 < length b <= 10)%nat)
          (sendSolToAll_walletBatches targetWallets))
    /\ (concat (sendTokenToAll_walletBatches targetWallets) = targetWallets
        /\ length (sendTokenToAll_walletBatches targetWallets)
           = ceil_div (length targetWallets) 5
        /\ Forall (fun b => (0 < length b <= 5)%nat)
             (sendTokenToAll_walletBatches targetWallets))
    /\ (length targetWallets = 23%nat ->
        map length (sendSolToAll_walletBatches targetWallets)
        = [10; 10; 3]%nat).
Proof.
  intros A l. unfold sendSolToAll_walletBatches, sendTokenToAll_walletBatches.
  destruct (walletBatches_spec 10 (Nat.lt_0_succ 9) l) as (H1 & H2 & H3 & H4).
  destruct (walletBatches_spec 5 (Nat.lt_0_succ 4) l) as (H5 & H6 & H7 & _).
  repeat split; try assumption.
  intros H23. rewrite H4, H23. reflexivity.
Qed.

Lemma batch_partition_23_wallets :
  length (seq 1 23) = 23%nat
  /\ map length (sendSolToAll_walletBatches (seq 1 23)) = [10; 10; 3]%nat.
Proof.
  split; [reflexivity|].
  apply (batch_partition_lossless_ordered_cover nat (seq 1 23)).
  reflexivity.
Defined.

End BatchFacts.

(* ================================================================= *)
(** ** A failing batch does not stop the run *)

Module SendFacts.
Import Send.

Section sending.
Context `{sdk : Sdk}.

Lemma silent_call {A} (r : Error + A) : silent (call r).
Proof. intros s s' r' [= <- _]. reflexivity. Qed.


Lemma silent_ret {A} (x : A) : silent (mret x).
Proof. intros s s' r [= <- _]. reflexivity. Qed.

Lemma silent_bind {A B} (m : M A) (f : A -> M B) :
  silent m -> (forall x, silent (f x)) -> silent (m ≫= f).
Proof.
  intros Hm Hf s s' r. unfold mbind, M_bind.
  destruct (m s) as [s1 [e|x]] eqn:Em.
  - intros [= <- _]. eauto.
  - intros Ef. rewrite (Hf _ _ _ _ Ef). eauto.
Qed.

Lemma silent_for_of {A B} (xs : list A) (body : B -> A -> M B) (acc : B) :
  (forall b x, silent (body b x)) -> silent (for_of xs body acc).
Proof.
  intros Hbody. revert acc.
  induction xs as [|x xs IH]; intros acc; simpl.
  - apply silent_ret.
  - apply silent_bind; auto.
Qed.

Lemma console_log_run (l : Line) (s : State) :
  exists s', console_log l s = (s', inr tt) /\ console s' = console s ++ [l].
Proof. eexists. split; reflexivity. Qed.

Lemma log_recipients_run (walletBatch : list Wallet) (s : State) :
  exists s',
    log_recipients walletBatch s = (s', inr tt)
    /\ console s' = console s
                    ++ map (fun w => Recipient (name w) (publicKey w)) walletBatch.
Proof.
  unfold log_recipients. revert s.
  induction walletBatch as [|w ws IH]; intros s; simpl.
  - exists s. rewrite app_nil_r. split; reflexivity.
  - unfold mbind, M_bind. simpl.
    destruct (IH {| network := network s;
                    console := console s ++ [Recipient (name w) (publicKey w)] |})
      as (s' & Hrun & Hcon).
    exists s'. split; [exact Hrun|].
    rewrite Hcon. simpl. rewrite <- app_assoc. reflexivity.
Qed.

Lemma send_and_report_run asset mainWallet amount total batchIndex walletBatch
    transaction (s : State) :
  (exists s' e, send_and_report asset mainWallet amount total batchIndex
                  walletBatch transaction s = (s', inl e)
                /\ console s' = console s)
  \/ (exists s' signature,
         send_and_report asset mainWallet amount total batchIndex
           walletBatch transaction s = (s', inr tt)
         /\ console s'
            = console s
              ++ BatchSent asset (batchIndex + 1) total amount (length walletBatch)
                 :: TransactionSignature signature
                 :: map (fun w => Recipient (name w) (publicKey w)) walletBatch).
Proof.
  unfold send_and_report, mbind, M_bind, await.
  destruct (sendAndConfirmTransaction transaction [mainWallet] (network s))
    as [n [e|signature]].
  - left. eexists _, e. split; reflexivity.
  - right. simpl.
    match goal with
    | |- context [log_recipients walletBatch ?s0] =>
        destruct (log_recipients_run walletBatch s0) as (s' & Hrun & Hcon)
    end.
    exists s', signature. split; [exact Hrun|].
    rewrite Hcon. simpl. rewrite <- !app_assoc. reflexivity.
Qed.

(** A [try] block made of a silent build phase followed by the shared
    tail, under its [catch]: it never throws and leaves one batch report. *)
Lemma guarded_batch_run asset mainWallet amount total batchIndex walletBatch
    (build : M Transaction) (s : State) :
  silent build ->
  exists s' lines,
    try_catch
      (transaction ← build;
       send_and_report asset mainWallet amount total batchIndex walletBatch
         transaction)
      (fun error => console_log (BatchError asset (batchIndex + 1) error)) s
    = (s', inr tt)
    /\ console s' = console s ++ lines
    /\ batch_report asset amount total batchIndex walletBatch lines.
Proof.
  intros Hbuild. unfold try_catch, mbind at 1, M_bind at 1.
  destruct (build s) as [s1 [e|transaction]] eqn:Eb;
    pose proof (Hbuild _ _ _ Eb) as Hs1.
  - eexists _, [BatchError asset (batchIndex + 1) e].
    split; [reflexivity|]. split; [simpl; rewrite Hs1; reflexivity|].
    right. eauto.
  - destruct (send_and_report_run asset mainWallet amount total batchIndex
                walletBatch transaction s1)
      as [(s' & e & -> & Hcon)|(s' & signature & -> & Hcon)].
    + eexists _, [BatchError asset (batchIndex + 1) e].
      split; [reflexivity|]. split; [simpl; rewrite Hcon, Hs1; reflexivity|].
      right. eauto.
    + eexists s', _. split; [reflexivity|].
      split; [rewrite Hcon, Hs1; reflexivity|]. left. eauto.
Qed.

Lemma sendSol_try_guarded mainWallet amount amountLamports total batchIndex
    walletBatch (s : State) :
  exists s' lines,
    try_catch
      (sendSol_try mainWallet amount amountLamports total batchIndex walletBatch)
      (fun error => console_log (BatchError SOL (batchIndex + 1) error)) s
    = (s', inr tt)
    /\ console s' = console s ++ lines
    /\ batch_report SOL amount total batchIndex walletBatch lines.
Proof.
  apply (guarded_batch_run SOL).
  apply silent_for_of. intros t w.
  apply silent_bind; [apply silent_call|]. intros pk. apply silent_call.
Qed.



(** A batch loop whose every iteration is a guarded batch: it returns, and
    the console grows by one report per batch, in order. *)
Lemma guarded_loop_run (asset : Asset) (amount : Number) (total : nat)
    (loop : nat -> list (list Wallet) -> M unit)
    (guarded : nat -> list Wallet -> M unit) :
  (forall k, loop k [] = mret tt) ->
  (forall k b rest, loop k (b :: rest) = (guarded k b ≫= fun _ => loop (S k) rest)) ->
  (forall k b s, exists s' lines,
      guarded k b s = (s', inr tt)
      /\ console s' = console s ++ lines
      /\ batch_report asset amount total k b lines) ->
  forall walletBatches first s,
  exists s' reports,
    loop first walletBatches s = (s', inr tt)
    /\ console s' = console s ++ concat reports
    /\ reports_cover asset amount total first walletBatches reports.
Proof.
  intros Hnil Hcons Hguard walletBatches.
  induction walletBatches as [|b rest IH]; intros first s.
  - exists s, []. rewrite Hnil. simpl. rewrite app_nil_r.
    split; [reflexivity|]. split; [reflexivity|].
    split; [reflexivity|]. intros k wb lines Hk. discriminate Hk.
  - rewrite Hcons. unfold mbind, M_bind.
    destruct (Hguard first b s) as (s1 & lines & -> & Hcon1 & Hrep).
    destruct (IH (S first) s1) as (s' & reports & -> & Hcon & Hlen & Hcov).
    exists s', (lines :: reports). split; [reflexivity|].
    split; [simpl; rewrite Hcon, Hcon1, <- app_assoc; reflexivity|].
    split; [simpl; rewrite Hlen; reflexivity|].
    intros [|k] wb ls Hwb Hls; simpl in Hwb, Hls.
    + injection Hwb as <-. injection Hls as <-.
      rewrite Nat.add_0_r. exact Hrep.
    + replace (first + S k)%nat with (S first + k)%nat by lia. eauto.
Qed.

Lemma sendSol_batches_run mainWallet amount amountLamports total walletBatches
    first (s : State) :
  exists s' reports,
    sendSol_batches mainWallet amount amountLamports total first walletBatches s
    = (s', inr tt)
    /\ console s' = console s ++ concat reports
    /\ reports_cover SOL amount total first walletBatches reports.
Proof.
  apply (guarded_loop_run SOL amount total
           (sendSol_batches mainWallet amount amountLamports total)
           (fun k b => try_catch
              (sendSol_try mainWallet amount amountLamports total k b)
              (fun error => console_log (BatchError SOL (k + 1) error)))).
  - reflexivity.
  - reflexivity.
  - intros k b s0. apply sendSol_try_guarded.
Qed.


End sending.


(** Three native batches on the small network, the second paying the
    refused address: the first and third are sent, the second leaves its
    error line, and the run ends normally. *)
Example sendSolToAll_run_middle_batch_fails :
  let w n := {| name := n; publicKey := n; privateKey := str "k" |} in
  let printed : list (@Line toySdk) :=
    [@BatchSent toySdk SOL 1 3 1 2; @TransactionSignature toySdk 7%nat;
     @Recipient toySdk (str "a") (str "a"); @Recipient toySdk (str "b") (str "b");
     @BatchError toySdk SOL 2 (str "Transaction simulation failed");
     @BatchSent toySdk SOL 3 3 1 1; @TransactionSignature toySdk 9%nat;
     @Recipient toySdk (str "c") (str "c");
     @Completed toySdk SOL 1] in
  @sendSolToAll_run toySdk (str "main") 1
    [[w (str "a"); w (str "b")]; [w (str "bad")]; [w (str "c")]]
    (@Build_State toySdk 7%nat [])
  = (@Build_State toySdk 10%nat printed, inr tt).
Proof. vm_compute. reflexivity. Qed.

End SendFacts.

(* ================================================================= *)
(** ** The collection policy *)

Module CollectFacts.
Import Collect.


Lemma collectionPlan_withdraw
    (balance reserveAmount feeEstimate minRentExempt amount : Z) :
  collectionPlan balance reserveAmount feeEstimate minRentExempt
  = withdraw amount
  <-> minRentExempt + feeEstimate + reserveAmount < balance
      /\ amount = balance - reserveAmount - feeEstimate.
Proof.
  unfold collectionPlan.
  destruct (Z.leb_spec balance (minRentExempt + feeEstimate + reserveAmount)).
  - split; [discriminate | lia].
  - split.
    + intros [= <-]. split; [assumption | reflexivity].
    + intros [_ ->]. reflexivity.
Qed.


(** C4, the claim as stated fails on its second figure: on a balance of
    895881 the amount is the balance less the fee, not the whole
    balance. *)
Lemma collection_example_whole_balance_refuted :
  ~ (collectionPlan 895880 0 5000 890880 = skip
     /\ collectionPlan 895881 0 5000 890880 = withdraw 895881).
Proof. intros [_ H]. vm_compute in H. discriminate H. Qed.

(** C4, amended. With minRentExempt = 890880, feeEstimate = 5000 and
    reserve = 0, a balance of 895880 is skipped and a balance of 895881 is
    withdrawn for 890881 = 895881 - 0 - 5000 lamports. *)
Theorem collection_example_at_threshold :
  collectionPlan 895880 0 5000 890880 = skip
  /\ collectionPlan 895881 0 5000 890880 = withdraw 890881
  /\ collectSol_plan 895880 0 890880 = skip
  /\ collectSol_plan 895881 0 890880 = withdraw 890881.
Proof.
  unfold collectSol_plan, transferFee, collectionPlan.
  repeat (split; [vm_compute; reflexivity|]). vm_compute. reflexivity.
Qed.

(** C10. Whenever the policy decides to withdraw, that is when
    balance > minRentExempt + feeEstimate + reserveAmount, the amount
    balance - reserveAmount - feeEstimate is strictly greater than the
    rent-exempt minimum; the network's minimum is not negative, so the
    amount is strictly positive, and the transfer instruction [collectSol]
    builds never carries zero or negative lamports. *)
Theorem withdrawal_amount_exceeds_rent_and_is_positive :
  forall balance reserveAmount feeEstimate minRentExempt : Z,
    0 <= minRentExempt ->
    minRentExempt + feeEstimate + reserveAmount < balance ->
    collectionPlan balance reserveAmount feeEstimate minRentExempt
    = withdraw (balance - reserveAmount - feeEstimate)
    /\ minRentExempt < balance - reserveAmount - feeEstimate
    /\ 0 < balance - reserveAmount - feeEstimate
    /\ forall source main instruction,
        collectSol_transfer source main balance reserveAmount minRentExempt
        = Some instruction ->
        minRentExempt < lamports instruction /\ 0 < lamports instruction.
Proof.
  intros balance reserveAmount feeEstimate minRentExempt Hrent Hgt.
  split; [apply collectionPlan_withdraw; lia|].
  split; [lia|]. split; [lia|].
  intros source main instruction. unfold collectSol_transfer, collectSol_plan.
  destruct (collectionPlan balance reserveAmount transferFee minRentExempt)
    as [|amount] eqn:Hplan; [discriminate|].
  intros [= <-]. simpl.
  apply collectionPlan_withdraw in Hplan. lia.
Qed.

Lemma withdrawal_amount_positive_at_threshold :
  0 <= 890880
  /\ 890880 + 5000 + 0 < 895881
  /\ collectionPlan 895881 0 5000 890880 = withdraw (895881 - 0 - 5000)
  /\ 890880 < 895881 - 0 - 5000.
Proof.
  split; [lia|]. split; [lia|].
  destruct (withdrawal_amount_exceeds_rent_and_is_positive
              895881 0 5000 890880) as (H1 & H2 & _); [lia | lia |].
  split; [exact H1 | exact H2].
Defined.

End CollectFacts.

(* ================================================================= *)
(** ** The wallet-index range parser *)

Module SelectorFacts.
Import Selector.

(** *** The range loop *)

Lemma range_loop_elem (i end_ : Z) (indices : list Z) (n : Z) :
  n ∈ range_loop i end_ indices <-> n ∈ indices \/ i <= n <= end_.
Proof.
  funelim (range_loop i end_ indices); clear Heq.
  - rewrite H. rewrite elem_of_app, list_elem_of_singleton. intuition lia.
  - intuition lia.
Qed.

(** *** One part, and all parts *)

Lemma parse_part_elem (indices : list Z) (part : JsString) (n : Z) :
  n ∈ parse_part indices part <-> n ∈ indices \/ token_refers part n.
Proof.
  unfold parse_part.
  destruct (includes part hyphen) eqn:Hh.
  - destruct (split hyphen part) as [|low [|high more]] eqn:Hs; simpl.
    + split; [auto|]. intros [H|H]; [exact H|].
      destruct H; congruence.
    + assert (Hno : ~ token_refers part n)
        by (intros H; destruct H; congruence).
      destruct (parseInt (trim low)); tauto.
    + destruct (parseInt (trim low)) as [a|] eqn:Ha;
        [destruct (parseInt (trim high)) as [b|] eqn:Hb|].
      * rewrite range_loop_elem. split.
        -- intros [H|H]; [auto|]. right. eapply refers_range; eauto.
        -- intros [H|H]; [auto|]. right.
           destruct H as [Hc _|l h m a' b' _ Hs' Ha' Hb' Hn]; [congruence|].
           rewrite Hs in Hs'. injection Hs' as <- <- <-.
           rewrite Ha in Ha'. rewrite Hb in Hb'.
           injection Ha' as <-. injection Hb' as <-. exact Hn.
      * split; [auto|]. intros [H|H]; [exact H|].
        destruct H as [Hc _|l h m a' b' _ Hs' _ Hb' _]; [congruence|].
        rewrite Hs in Hs'. injection Hs' as <- <- <-. congruence.
      * split; [auto|]. intros [H|H]; [exact H|].
        destruct H as [Hc _|l h m a' b' _ Hs' Ha' _ _]; [congruence|].
        rewrite Hs in Hs'. injection Hs' as <- <- <-. congruence.
  - destruct (parseInt (trim part)) as [index|] eqn:Hp.
    + rewrite elem_of_app, list_elem_of_singleton. split.
      * intros [H| ->]; [auto|]. right. apply refers_single; assumption.
      * intros [H|H]; [auto|]. right.
        destruct H as [_ Hp'|? ? ? ? ? Hc]; congruence.
    + split; [auto|]. intros [H|H]; [exact H|].
      destruct H as [_ Hp'|? ? ? ? ? Hc]; congruence.
Qed.

Lemma parse_parts_elem (parts : list JsString) (indices : list Z) (n : Z) :
  n ∈ fold_left parse_part parts indices
  <-> n ∈ indices \/ exists token, token ∈ parts /\ token_refers token n.
Proof.
  revert indices. induction parts as [|p parts IH]; intros indices; simpl.
  - split; [auto|]. intros [H|(t & Ht & _)]; [exact H|]. inversion Ht.
  - rewrite IH, parse_part_elem. split.
    + intros [[H|H]|(t & Ht & Hr)]; [auto| |].
      * right. exists p. split; [constructor | exact H].
      * right. exists t. split; [constructor; exact Ht | exact Hr].
    + intros [H|(t & Ht & Hr)]; [auto|].
      apply elem_of_cons in Ht as [-> | Ht]; [auto|].
      right. exists t. auto.
Qed.

(** *** The set and the sort *)

Lemma Set_values_fold (indices seen : list Z) :
  NoDup seen ->
  NoDup (fold_left (fun seen i => if decide (i ∈ seen) then seen else seen ++ [i])
           indices seen)
  /\ forall n,
      n ∈ fold_left (fun seen i => if decide (i ∈ seen) then seen else seen ++ [i])
            indices seen
      <-> n ∈ seen \/ n ∈ indices.
Proof.
  revert seen. induction indices as [|i indices IH]; intros seen Hnd; simpl.
  - split; [exact Hnd|]. intros n. rewrite elem_of_nil. tauto.
  - destruct (decide (i ∈ seen)) as [Hin|Hnin].
    + destruct (IH seen Hnd) as [H1 H2]. split; [exact H1|].
      intros n. rewrite H2, elem_of_cons. split; [tauto|].
      intros [H|[-> |H]]; auto.
    + assert (Hnd' : NoDup (seen ++ [i])).
      { apply NoDup_app. split; [exact Hnd|]. split.
        - intros x Hx Hx'. apply list_elem_of_singleton in Hx' as ->. auto.
        - apply NoDup_singleton. }
      destruct (IH _ Hnd') as [H1 H2]. split; [exact H1|].
      intros n. rewrite H2, elem_of_app, list_elem_of_singleton, elem_of_cons.
      tauto.
Qed.

Lemma Set_values_NoDup (indices : list Z) : NoDup (Set_values indices).
Proof. apply Set_values_fold. constructor. Qed.

Lemma Set_values_elem (indices : list Z) (n : Z) :
  n ∈ Set_values indices <-> n ∈ indices.
Proof.
  unfold Set_values.
  destruct (Set_values_fold indices [] (NoDup_nil_2 : NoDup [])) as [_ H].
  rewrite H, elem_of_nil. tauto.
Qed.

Lemma sorted_distinct_strict (l : list Z) :
  StronglySorted Z.le l -> NoDup l -> StronglySorted Z.lt l.
Proof.
  induction 1 as [|x l Hs IH Hall]; intros Hnd; constructor.
  - apply IH. apply NoDup_cons in Hnd. tauto.
  - apply NoDup_cons in Hnd as [Hx _].
    rewrite Forall_forall in Hall |- *. intros y Hy.
    assert (x <> y) by (intros ->; auto).
    specialize (Hall y Hy). lia.
Qed.

Lemma sort_ascending_strict (l : list Z) :
  NoDup l -> StronglySorted Z.lt (sort_ascending l).
Proof.
  intros Hnd. apply sorted_distinct_strict.
  - apply StronglySorted_merge_sort.
    + intros x y z. apply Z.le_trans.
    + intros x y. apply Z.le_ge_cases.
  - unfold sort_ascending. rewrite merge_sort_Permutation. exact Hnd.
Qed.

Lemma sort_ascending_elem (l : list Z) (n : Z) :
  n ∈ sort_ascending l <-> n ∈ l.
Proof. unfold sort_ascending. rewrite merge_sort_Permutation. reflexivity. Qed.

(** *** Tokens never denote a negative index *)

Lemma includes_false (s : JsString) (c : N) :
  includes s c = false <-> c ∉ s.
Proof.
  unfold includes. induction s as [|x s IH]; simpl.
  - split; [intros _ H; inversion H | reflexivity].
  - rewrite orb_false_iff, IH, not_elem_of_cons, N.eqb_neq. tauto.
Qed.









(** *** A decimal numeral denotes its number, however large *)

Lemma uint_codes_digits (d : Decimal.uint) : Forall is_digit (uint_codes d).
Proof. induction d; simpl; constructor; auto; unfold is_digit; lia. Qed.

Lemma digit_not_space (c : N) : is_digit c -> isWhiteSpace c = false.
Proof.
  unfold is_digit, isWhiteSpace. intros Hc.
  repeat match goal with
         | |- context [N.leb ?a ?b] => destruct (N.leb_spec a b)
         | |- context [N.eqb ?a ?b] => destruct (N.eqb_spec a b)
         end; simpl; try reflexivity; lia.
Qed.

Lemma trimStart_digits (s : JsString) : Forall is_digit s -> trimStart s = s.
Proof.
  destruct 1 as [|c s Hc _]; simpl; [reflexivity|].
  rewrite (digit_not_space c Hc). reflexivity.
Qed.

Lemma trim_digits (s : JsString) : Forall is_digit s -> trim s = s.
Proof.
  intros Hs. unfold trim, trimEnd. rewrite (trimStart_digits s Hs).
  rewrite trimStart_digits by (apply Forall_reverse; exact Hs).
  apply reverse_involutive.
Qed.

Lemma digits_exclude (s : JsString) (c : N) :
  Forall is_digit s -> ~ is_digit c -> c ∉ s.
Proof.
  intros Hs Hc Hin. rewrite Forall_forall in Hs. apply Hc, Hs, Hin.
Qed.

Lemma parseInt_digits (s : JsString) :
  Forall is_digit s -> parseInt s = parseDigits 10 None s.
Proof.
  intros Hs. unfold parseInt. rewrite (trimStart_digits s Hs).
  destruct Hs as [|c s Hc Hs]; [reflexivity|].
  assert (H45 : N.eqb c 45 = false) by (apply N.eqb_neq; unfold is_digit in Hc; lia).
  assert (H43 : N.eqb c 43 = false) by (apply N.eqb_neq; unfold is_digit in Hc; lia).
  rewrite H45, H43.
  destruct Hs as [|cx s Hcx Hs].
  - destruct (parseDigits 10 None [c]) as [m|]; [f_equal; lia | reflexivity].
  - assert (H120 : N.eqb cx 120 = false)
      by (apply N.eqb_neq; unfold is_digit in Hcx; lia).
    assert (H88 : N.eqb cx 88 = false)
      by (apply N.eqb_neq; unfold is_digit in Hcx; lia).
    rewrite H120, H88, andb_false_r.
    destruct (parseDigits 10 None (c :: cx :: s)) as [m|];
      [f_equal; lia | reflexivity].
Qed.

Lemma parseDigits_uint (d : Decimal.uint) (a : Z) :
  0 <= a ->
  parseDigits 10 (Some a) (uint_codes d)
  = Some (Z.of_nat (Nat.of_uint_acc d (Z.to_nat a))).
Proof.
  revert a. induction d as [|d IH|d IH|d IH|d IH|d IH|d IH|d IH|d IH|d IH|d IH];
    intros a Ha; simpl;
    [f_equal; lia | ..];
    (rewrite IH by lia; do 2 f_equal;
     rewrite Nat.tail_mul_spec; f_equal; lia).
Qed.

Lemma to_uint_not_nil (n : nat) : Nat.to_uint n <> Decimal.Nil.
Proof.
  intros H. pose proof (DecimalNat.Unsigned.of_to n) as Hn.
  rewrite H in Hn. simpl in Hn. subst n. discriminate H.
Qed.

Lemma parseDigits_toString (n : nat) :
  parseDigits 10 None (toString n) = Some (Z.of_nat n).
Proof.
  unfold toString.
  pose proof (DecimalNat.Unsigned.of_to n) as Hn. unfold Nat.of_uint in Hn.
  pose proof (to_uint_not_nil n) as Hnil.
  destruct (Nat.to_uint n) as [|d|d|d|d|d|d|d|d|d|d];
    [congruence | ..]; simpl;
    (rewrite parseDigits_uint by lia; rewrite <- Hn; simpl;
     do 2 f_equal).
Qed.

Lemma split_without_separator (sep : N) (s : JsString) :
  sep ∉ s -> split sep s = [s].
Proof.
  induction s as [|c s IH]; simpl; [reflexivity|].
  rewrite not_elem_of_cons. intros [Hc Hs].
  destruct (N.eqb_spec c sep); [congruence|]. rewrite (IH Hs). reflexivity.
Qed.




(** A selector with a range written with spaces, a hexadecimal
    numeral and a numeral followed by letters: [parseInt] reads the longest
    numeric prefix of each. *)
Example parseWalletIndices_lenient_numerals :
  parseWalletIndices (Some (str "10 - 12,0x10,5abc,-4")) = [5; 10; 11; 12; 16].
Proof. vm_compute. reflexivity. Qed.

End SelectorFacts.

(* ================================================================= *)
(** ** The wallet store: creation and import merge *)

Module ImporterFacts.
Import Importer.

(** *** [findIndex] *)

Lemma findIndex_Some {A} (p : A -> Prop) `{forall x, Decision (p x)}
    (arr : list A) (i : nat) :
  findIndex p arr = Some i ->
  exists before found after,
    arr = before ++ found :: after
    /\ length before = i
    /\ p found
    /\ Forall (fun x => ~ p x) before.
Proof.
  unfold findIndex. destruct (list_find p arr) as [[j x]|] eqn:Hf; [|discriminate].
  intros [= <-]. apply list_find_Some in Hf as (Hx & Hp & Hbefore).
  exists (take j arr), x, (drop (S j) arr).
  assert (j < length arr)%nat by (eapply lookup_lt_Some; eauto).
  split; [symmetry; apply take_drop_middle; exact Hx|].
  split; [rewrite length_take; lia|]. split; [exact Hp|].
  apply Forall_forall. intros y Hy.
  apply list_elem_of_lookup in Hy as [k Hk].
  assert (k < j)%nat
    by (apply lookup_lt_Some in Hk; rewrite length_take in Hk; lia).
  rewrite lookup_take_lt in Hk by lia. eauto.
Qed.

Lemma findIndex_None {A} (p : A -> Prop) `{forall x, Decision (p x)}
    (arr : list A) :
  findIndex p arr = None -> Forall (fun x => ~ p x) arr.
Proof.
  unfold findIndex. destruct (list_find p arr) as [[j x]|] eqn:Hf; [discriminate|].
  intros _. apply list_find_None in Hf. exact Hf.
Qed.

Lemma insert_middle {A} (before after : list A) (x y : A) :
  <[length before := y]> (before ++ x :: after) = before ++ y :: after.
Proof.
  rewrite insert_app_r_alt by lia. rewrite Nat.sub_diag. reflexivity.
Qed.

(** *** One step of the merge, case by case *)

Lemma merge_step_case (overwrite : bool) (merged : list Wallet) (count : nat)
    (out : list Line) (wallet : Wallet) :
  exists merged' (counted : bool) lines,
    merge_step overwrite (merged, count, out) wallet
    = (merged', if counted then S count else count, out ++ lines)
    /\ merge_case overwrite merged wallet merged' counted lines.
Proof.
  unfold merge_step.
  destruct (findIndex (fun w => name w = name wallet) merged) as [i|] eqn:Hn.
  - apply findIndex_Some in Hn as (before & same & after & -> & <- & Hsame & Hb).
    destruct overwrite.
    + rewrite insert_middle.
      eexists _, true, _. split; [reflexivity|].
      eapply case_overwrite_name; eauto.
    + eexists _, false, _. split; [reflexivity|].
      apply case_skip_name; [reflexivity|].
      apply Exists_app. right. left. exact Hsame.
  - apply findIndex_None in Hn.
    destruct (findIndex (fun w => publicKey w = publicKey wallet) merged)
      as [j|] eqn:Hk.
    + apply findIndex_Some in Hk as (before & same & after & -> & <- & Hsame & Hb).
      destruct overwrite.
      * rewrite insert_middle.
        eexists _, true, _. split; [reflexivity|].
        eapply case_overwrite_address; eauto.
      * eexists _, false, _. split; [reflexivity|].
        apply case_skip_address; [reflexivity | exact Hn |].
        apply Exists_app. right. left. exact Hsame.
    + apply findIndex_None in Hk.
      eexists _, true, []. rewrite app_nil_r. split; [reflexivity|].
      apply case_append; assumption.
Qed.

(** *** The merge loop follows the policy *)

Lemma merge_loop_merges (overwrite : bool) (incoming merged : list Wallet)
    (count : nat) (out : list Line) :
  merges overwrite merged count incoming
    (fold_left (merge_step overwrite) incoming (merged, count, out)).1.1
    (fold_left (merge_step overwrite) incoming (merged, count, out)).1.2.
Proof.
  revert merged count out.
  induction incoming as [|wallet incoming IH]; intros merged count out;
    cbn [fold_left].
  - constructor.
  - destruct (merge_step_case overwrite merged count out wallet)
      as (merged' & counted & lines & -> & Hcase).
    specialize (IH merged' (if counted then S count else count) (out ++ lines)).
    destruct Hcase.
    + eapply merges_overwrite_name; eauto.
    + eapply merges_skip_name; eauto.
    + eapply merges_overwrite_address; eauto.
    + eapply merges_skip_address; eauto.
    + eapply merges_append; eauto.
Qed.

Lemma skipped_app (out lines : list Line) :
  skipped (out ++ lines) = (skipped out + skipped lines)%nat.
Proof. unfold skipped. rewrite filter_app, length_app. reflexivity. Qed.

Lemma merge_loop_count (overwrite : bool) (incoming merged : list Wallet)
    (count : nat) (out : list Line) :
  let result := fold_left (merge_step overwrite) incoming (merged, count, out) in
  (result.1.2 + skipped result.2 = count + skipped out + length incoming)%nat.
Proof.
  revert merged count out.
  induction incoming as [|wallet incoming IH]; intros merged count out;
    cbn [fold_left].
  - simpl. lia.
  - destruct (merge_step_case overwrite merged count out wallet)
      as (merged' & counted & lines & -> & Hcase).
    specialize (IH merged' (if counted then S count else count) (out ++ lines)).
    simpl in IH. rewrite IH, skipped_app.
    destruct Hcase; unfold skipped; simpl; lia.
Qed.

Lemma merge_loop_keeps_existing (incoming merged : list Wallet) (count : nat)
    (out : list Line) :
  let result := fold_left (merge_step false) incoming (merged, count, out) in
  exists appended,
    result.1.1 = merged ++ appended
    /\ result.1.2 = (count + length appended)%nat.
Proof.
  revert merged count out.
  induction incoming as [|wallet incoming IH]; intros merged count out;
    cbn [fold_left].
  - exists []. rewrite app_nil_r. split; [reflexivity | simpl; lia].
  - destruct (merge_step_case false merged count out wallet)
      as (merged' & counted & lines & -> & Hcase).
    destruct (IH merged' (if counted then S count else count) (out ++ lines))
      as (appended & H1 & H2).
    destruct Hcase; try discriminate.
    + exists appended. auto.
    + exists appended. auto.
    + exists (wallet :: appended). rewrite H1, H2, <- app_assoc. simpl.
      split; [reflexivity | lia].
Qed.

(** *** Names stay unique *)










(** *** The policy determines the merge *)

Lemma first_match_unique {A} (p : A -> Prop) (b1 b2 a1 a2 : list A) (x1 x2 : A) :
  b1 ++ x1 :: a1 = b2 ++ x2 :: a2 ->
  p x1 -> p x2 ->
  Forall (fun y => ~ p y) b1 -> Forall (fun y => ~ p y) b2 ->
  b1 = b2 /\ x1 = x2 /\ a1 = a2.
Proof.
  revert b2. induction b1 as [|y b1 IH]; intros [|z b2] Heq H1 H2 Hb1 Hb2;
    simpl in Heq; injection Heq as -> Heq.
  - auto.
  - exfalso. apply Forall_cons in Hb2 as [Hz _]. auto.
  - exfalso. apply Forall_cons in Hb1 as [Hy _]. auto.
  - apply Forall_cons in Hb1 as [_ Hb1]. apply Forall_cons in Hb2 as [_ Hb2].
    destruct (IH b2 Heq H1 H2 Hb1 Hb2) as (-> & -> & ->). auto.
Qed.

Lemma none_and_some {A} (p : A -> Prop) (l : list A) :
  Forall (fun y => ~ p y) l -> Exists p l -> False.
Proof.
  intros Hall Hex. apply Exists_exists in Hex as (x & Hx & Hp).
  rewrite Forall_forall in Hall. exact (Hall x Hx Hp).
Qed.

Lemma none_and_middle {A} (p : A -> Prop) (before after : list A) (x : A) :
  Forall (fun y => ~ p y) (before ++ x :: after) -> p x -> False.
Proof.
  intros Hall Hp. apply Forall_app in Hall as [_ Hall].
  apply Forall_cons in Hall as [Hx _]. auto.
Qed.

(** Two cases of the policy that cannot both apply: a field no merged
    record shares, and a merged record that shares it. *)
Ltac clash field :=
  exfalso;
  match goal with
  | Hall : Forall (fun w => field w <> ?v) ?l,
    Hex : Exists (fun w => field w = ?v) ?l |- _ =>
      exact (none_and_some (fun w => field w = v) l Hall Hex)
  | Hall : Forall (fun w => field w <> ?v) (?b ++ ?x :: ?a),
    Hx : field ?x = ?v |- _ =>
      exact (none_and_middle (fun w => field w = v) b a x Hall Hx)
  | Hall : Forall (fun w => field w <> ?v) ?l,
    Heq : ?l = ?b ++ ?x :: ?a, Hx : field ?x = ?v |- _ =>
      rewrite Heq in Hall;
      exact (none_and_middle (fun w => field w = v) b a x Hall Hx)
  | Hall : Forall (fun w => field w <> ?v) ?l,
    Heq : ?b ++ ?x :: ?a = ?l, Hx : field ?x = ?v |- _ =>
      rewrite <- Heq in Hall;
      exact (none_and_middle (fun w => field w = v) b a x Hall Hx)
  end.

Lemma merges_functional (overwrite : bool) (merged incoming : list Wallet)
    (count : nat) (m1 m2 : list Wallet) (c1 c2 : nat) :
  merges overwrite merged count incoming m1 c1 ->
  merges overwrite merged count incoming m2 c2 ->
  m1 = m2 /\ c1 = c2.
Proof.
  intros H1. revert m2 c2.
  induction H1 as
    [ merged count
    | merged count wallet incoming before same after m1 c1 Ho Hm Hs Hb _ IH
    | merged count wallet incoming m1 c1 Ho Hex _ IH
    | merged count wallet incoming before same after m1 c1 Ho Hn Hm Hs Hb _ IH
    | merged count wallet incoming m1 c1 Ho Hn Hex _ IH
    | merged count wallet incoming m1 c1 Hn Hk _ IH ];
    intros m2 c2 H2; inversion H2; subst; try congruence;
    try (clash name); try (clash publicKey);
    try (apply IH; assumption).
  - auto.
  - match goal with
    | Heq : _ ++ _ :: _ = _ ++ _ :: _ |- _ =>
        eapply (first_match_unique (fun w => name w = name wallet)) in Heq
          as (-> & -> & ->); eauto
    end.
  - match goal with
    | Heq : _ ++ _ :: _ = _ ++ _ :: _ |- _ =>
        eapply (first_match_unique (fun w => publicKey w = publicKey wallet))
          in Heq as (-> & -> & ->); eauto
    end.
Qed.

(** C6. The merge handles the incoming records in order, each against the
    list merged so far: a record that shares its name with a merged record
    replaces it in place when overwrite is on and is left out otherwise;
    else a record that shares its address is treated by the same rule; else
    it is appended.  This determines the merged list and the import count;
    the count and the number of records reported as left out add up to the
    number of incoming records; with overwrite off the existing records
    stay as they are, the count is the number of records appended, and a
    record whose name is taken leaves the store unchanged and the count at
    zero. *)
Theorem import_merge_follows_policy :
  forall (overwrite : bool) (existingWallets processedWallets : list Wallet),
    let result := mergeWallets overwrite existingWallets processedWallets in
    merges overwrite existingWallets 0 processedWallets result.1.1 result.1.2
    /\ (forall merged count,
          merges overwrite existingWallets 0 processedWallets merged count ->
          merged = result.1.1 /\ count = result.1.2)
    /\ (result.1.2 + skipped result.2 = length processedWallets)%nat
    /\ (overwrite = false ->
        exists appended,
          result.1.1 = existingWallets ++ appended
          /\ result.1.2 = length appended)
    /\ (forall wallet,
          Exists (fun w => name w = name wallet) existingWallets ->
          mergeWallets false existingWallets [wallet]
          = (existingWallets, 0%nat, [SkippingDuplicateName (name wallet)])).
Proof.
  intros overwrite existingWallets processedWallets result.
  assert (Hm : merges overwrite existingWallets 0 processedWallets
                 result.1.1 result.1.2) by apply merge_loop_merges.
  split; [exact Hm|]. split; [|split; [|split]].
  - intros merged count H. eapply merges_functional; eauto.
  - pose proof (merge_loop_count overwrite processedWallets existingWallets
                  0%nat []) as H.
    simpl in H. exact H.
  - intros ->.
    destruct (merge_loop_keeps_existing processedWallets existingWallets 0%nat [])
      as (appended & H1 & H2).
    exists appended. split; [exact H1 | exact H2].
  - intros wallet Hex. unfold mergeWallets. cbn [fold_left].
    destruct (merge_step_case false existingWallets 0%nat [] wallet)
      as (merged' & counted & lines & -> & Hcase).
    destruct Hcase as [? ? ? Ho| | ? ? ? Ho|_ Hn _|Hn _]; try discriminate.
    + reflexivity.
    + exfalso. eapply (none_and_some (fun w => name w = name wallet)); eauto.
    + exfalso. eapply (none_and_some (fun w => name w = name wallet)); eauto.
Qed.

Lemma import_merge_name_duplicate_skipped :
  Exists (fun w => name w = name alice_again) [alice; bob]
  /\ mergeWallets false [alice; bob] [alice_again]
     = ([alice; bob], 0%nat, [SkippingDuplicateName (str "alice")]).
Proof.
  assert (H : Exists (fun w => name w = name alice_again) [alice; bob])
    by (left; reflexivity).
  split; [exact H|].
  exact (proj2 (proj2 (proj2 (proj2
           (import_merge_follows_policy false [alice; bob] [alice_again]))))
           alice_again H).
Defined.

(** The merge on a store of two wallets: with overwrite on, a record named
    as an existing one replaces it in place and a new record is appended;
    both are counted. *)
Example mergeWallets_overwrite :
  mergeWallets true [alice; bob] [alice_again; carol]
  = ([alice_again; bob; carol], 2%nat, [OverwritingName (str "alice")]).
Proof. vm_compute. reflexivity. Qed.



(* ================================================================= *)
(** ** Import validation *)

Section importing.
Context `{codec : Codec}.

(** *** The processing loop *)

Lemma process_loop_acc format fixPublicKeys (importedWallets : list Raw.wallet) :
  forall i processedWallets out,
    process_loop format fixPublicKeys i importedWallets processedWallets out
    = (processedWallets
         ++ (process_loop format fixPublicKeys i importedWallets [] []).1,
       out ++ (process_loop format fixPublicKeys i importedWallets [] []).2).
Proof.
  induction importedWallets as [|wallet rest IH]; intros i pw out; simpl.
  - rewrite !app_nil_r. reflexivity.
  - destruct (processWallet format fixPublicKeys i wallet) as [pushed lines].
    rewrite (IH (S i) (pw ++ option_list pushed) (out ++ lines)).
    rewrite (IH (S i) (option_list pushed) lines).
    simpl. rewrite !app_assoc. reflexivity.
Qed.


Lemma process_loop_pushed format fixPublicKeys (importedWallets : list Raw.wallet)
    (stored : Wallet) :
  forall i processedWallets out,
    stored ∈ (process_loop format fixPublicKeys i importedWallets
                processedWallets out).1
    <-> stored ∈ processedWallets
        \/ exists j wallet,
            importedWallets !! j = Some wallet
            /\ (processWallet format fixPublicKeys (i + j) wallet).1
               = Some stored.
Proof.
  induction importedWallets as [|wallet rest IH]; intros i pw out; simpl.
  - split; [auto|]. intros [H|(j & w & Hj & _)]; [exact H | discriminate Hj].
  - destruct (processWallet format fixPublicKeys i wallet) as [pushed lines] eqn:Hp.
    rewrite IH, elem_of_app. split.
    + intros [[H|H]|(j & w & Hj & Hw)]; [auto| |].
      * right. exists 0%nat, wallet. rewrite Nat.add_0_r, Hp. simpl.
        destruct pushed; simpl in H; [|inversion H].
        apply list_elem_of_singleton in H as ->. auto.
      * right. exists (S j), w. simpl.
        replace (i + S j)%nat with (S i + j)%nat by lia. auto.
    + intros [H|([|j] & w & Hj & Hw)]; [auto| |]; simpl in Hj.
      * injection Hj as <-. rewrite Nat.add_0_r, Hp in Hw. simpl in Hw.
        subst pushed. left. right. simpl. left.
      * right. exists j, w.
        replace (S i + j)%nat with (i + S j)%nat by lia. auto.
Qed.

(** *** One record *)




Lemma verifyWallet_match fixPublicKeys processedWallet :
  derives processedWallet (publicKey processedWallet) ->
  verifyWallet fixPublicKeys processedWallet = (Some processedWallet, []).
Proof.
  unfold verifyWallet. intros (buf & H1 & H2).
  rewrite H1, H2, bool_decide_eq_false_2 by auto. reflexivity.
Qed.

Lemma verifyWallet_stored fixPublicKeys processedWallet stored lines :
  verifyWallet fixPublicKeys processedWallet = (Some stored, lines) ->
  derives stored (publicKey stored)
  /\ name stored = name processedWallet
  /\ privateKey stored = privateKey processedWallet.
Proof.
  unfold verifyWallet, derives.
  destruct (bs58_decode (privateKey processedWallet)) as [buf|] eqn:H1;
    [|discriminate].
  destruct (Keypair_fromSecretKey buf) as [derived|] eqn:H2; [|discriminate].
  destruct (bool_decide_reflect (derived <> publicKey processedWallet))
    as [Hne|Heq].
  - destruct fixPublicKeys; [|discriminate].
    intros [= <- _]. simpl. eauto.
  - intros [= <- _]. apply dec_stable in Heq. rewrite <- Heq. eauto.
Qed.





Lemma processWallet_standard_accepts fixPublicKeys i wallet
    (name_ publicKey_ privateKey_ : JsString) :
  truthy (Raw.name wallet) = Some name_ ->
  truthy (Raw.publicKey wallet) = Some publicKey_ ->
  truthy (Raw.privateKey wallet) = Some privateKey_ ->
  derives {| name := name_; publicKey := publicKey_; privateKey := privateKey_ |}
    publicKey_ ->
  processWallet standard fixPublicKeys i wallet
  = (Some {| name := name_; publicKey := publicKey_; privateKey := privateKey_ |},
     []).
Proof.
  intros Hn Hp Hs Hd. unfold processWallet, shapeWallet.
  rewrite Hn, Hp, Hs. rewrite verifyWallet_match by exact Hd. reflexivity.
Qed.

Lemma processWallet_standard_unnamed fixPublicKeys i wallet :
  truthy (Raw.name wallet) = None ->
  processWallet standard fixPublicKeys i wallet
  = (None, [SkippingInvalidWallet i]).
Proof.
  intros Hn. unfold processWallet, shapeWallet. rewrite Hn.
  destruct (truthy (Raw.publicKey wallet)), (truthy (Raw.privateKey wallet));
    reflexivity.
Qed.

Lemma processWallet_keyonly_accepts fixPublicKeys i wallet
    (publicKey_ privateKey_ : JsString) :
  truthy (Raw.publicKey wallet) = Some publicKey_ ->
  truthy (Raw.privateKey wallet) = Some privateKey_ ->
  let stored :=
    {| name := default (str "imported_wallet" ++ toString (i + 1))
                 (truthy (Raw.name wallet));
       publicKey := publicKey_;
       privateKey := (convertPrivateKey i privateKey_).1 |} in
  derives stored publicKey_ ->
  (processWallet keyonly fixPublicKeys i wallet).1 = Some stored.
Proof.
  intros Hp Hs stored Hd. unfold processWallet, shapeWallet.
  rewrite Hp, Hs.
  destruct (convertPrivateKey i privateKey_) as [key lines] eqn:Hc.
  fold stored. simpl in stored. rewrite verifyWallet_match by exact Hd.
  reflexivity.
Qed.

Lemma processWallet_stored format fixPublicKeys i wallet stored :
  (processWallet format fixPublicKeys i wallet).1 = Some stored ->
  derives stored (publicKey stored).
Proof.
  unfold processWallet.
  destruct (shapeWallet format i wallet) as [[pw|] lines]; [|discriminate].
  destruct (verifyWallet fixPublicKeys pw) as [verified lines'] eqn:Hv.
  simpl. intros ->. apply verifyWallet_stored in Hv. tauto.
Qed.

Lemma processWallets_pushed (importedWallets : list Raw.wallet) fixPublicKeys
    (stored : Wallet) :
  stored ∈ (processWallets importedWallets fixPublicKeys).1
  <-> exists i wallet,
      importedWallets !! i = Some wallet
      /\ (processWallet (detectFormat importedWallets) fixPublicKeys i wallet).1
         = Some stored.
Proof.
  unfold processWallets. rewrite process_loop_pushed. simpl.
  rewrite elem_of_nil. tauto.
Qed.

End importing.



(** The same file read with the fix option off and on. *)
Example import_mismatch_skipped_or_fixed :
  (@processWallets toyCodec [raw_alice; raw_bob_wrong_address; raw_carol] false).1
  = [alice; carol]
  /\ (@processWallets toyCodec [raw_alice; raw_bob_wrong_address; raw_carol] true).1
     = [alice; bob; carol].
Proof. split; vm_compute; reflexivity. Qed.

(** When the first record of a file lacks an address or a secret no format
    is detected, and every record of the file, valid or not, is reported
    and left out; the loop still visits each of them. *)
Example import_unknown_format_skips_every_record :
  @processWallets toyCodec [raw_without_secret; raw_alice; raw_carol] false
  = ([], [DetectedFormat unknown; UnknownWalletFormat 0; UnknownWalletFormat 1;
          UnknownWalletFormat 2]).
Proof. vm_compute. reflexivity. Qed.

(** C9, the claim as stated fails: in a file whose first record is named,
    a record that has an address and a valid key but no name is left
    out. *)
Lemma mixed_shapes_not_accepted :
  ~ (forall codec : Codec, @accepts_mixed_shapes_and_encodings codec).
Proof.
  intros H.
  destruct (H toyCodec [raw_alice; raw_unnamed] false 1%nat raw_unnamed
              (str "A2") (str "2") (str "2")
              eq_refl eq_refl eq_refl (or_introl eq_refl) eq_refl)
    as (stored & Hin & Hpk & _).
  vm_compute in Hin. apply list_elem_of_singleton in Hin. subst stored.
  discriminate Hpk.
Qed.

(** C9, amended. The importer detects the shape once per file, from its
    first record.  In a file whose first record has a name, an address and
    a secret, every record needs all three: a record without a name is
    left out, and the secret of an accepted record is taken as base58 as
    it stands.  In a file whose first record has an address and a secret
    and no name, a record with an address and a secret is accepted under
    its own name or a generated one, and a secret with one of the marks
    of base64 is decoded and stored in base58.  In both, every stored
    record's secret is base58 text of the key of its stored address. *)
Theorem import_shape_detected_from_first_record :
  forall (codec : Codec) (importedWallets : list Raw.wallet)
         (fixPublicKeys : bool),
    (forall first rest,
        importedWallets = first :: rest ->
        detectFormat importedWallets = detectFormat [first])
    /\ (forall stored,
          stored ∈ (processWallets importedWallets fixPublicKeys).1 ->
          derives stored (publicKey stored))
    /\ (detectFormat importedWallets = standard ->
        forall i wallet,
          importedWallets !! i = Some wallet ->
          (truthy (Raw.name wallet) = None ->
           processWallet standard fixPublicKeys i wallet
           = (None, [SkippingInvalidWallet i]))
          /\ (forall name_ publicKey_ privateKey_,
                truthy (Raw.name wallet) = Some name_ ->
                truthy (Raw.publicKey wallet) = Some publicKey_ ->
                truthy (Raw.privateKey wallet) = Some privateKey_ ->
                derives {| name := name_; publicKey := publicKey_;
                           privateKey := privateKey_ |} publicKey_ ->
                {| name := name_; publicKey := publicKey_;
                   privateKey := privateKey_ |}
                ∈ (processWallets importedWallets fixPublicKeys).1))
    /\ (detectFormat importedWallets = keyonly ->
        forall i wallet publicKey_ privateKey_,
          importedWallets !! i = Some wallet ->
          truthy (Raw.publicKey wallet) = Some publicKey_ ->
          truthy (Raw.privateKey wallet) = Some privateKey_ ->
          let privateKeyBase58 :=
            if looks_base64 privateKey_ then
              match base64Decode privateKey_ with
              | Some key => bs58_encode key
              | None => privateKey_
              end
            else privateKey_ in
          let stored :=
            {| name := default (str "imported_wallet" ++ toString (i + 1))
                         (truthy (Raw.name wallet));
               publicKey := publicKey_;
               privateKey := privateKeyBase58 |} in
          derives stored publicKey_ ->
          stored ∈ (processWallets importedWallets fixPublicKeys).1).
Proof.
  intros codec importedWallets fixPublicKeys. split; [|split; [|split]].
  - intros first rest ->. reflexivity.
  - intros stored Hin. apply processWallets_pushed in Hin as (i & w & _ & Hp).
    eapply processWallet_stored; eauto.
  - intros Hformat i wallet Hi. split.
    + apply processWallet_standard_unnamed.
    + intros n pk sk Hn Hp Hs Hd. apply processWallets_pushed.
      exists i, wallet. split; [exact Hi|]. rewrite Hformat.
      rewrite (processWallet_standard_accepts _ _ _ n pk sk) by assumption.
      reflexivity.
  - intros Hformat i wallet pk sk Hi Hp Hs sk58 stored Hd.
    apply processWallets_pushed. exists i, wallet. split; [exact Hi|].
    rewrite Hformat.
    assert (Hconv : (convertPrivateKey i sk).1 = sk58).
    { unfold convertPrivateKey, sk58.
      destruct (looks_base64 sk); [|reflexivity].
      destruct (base64Decode sk); reflexivity. }
    pose proof (processWallet_keyonly_accepts fixPublicKeys i wallet pk sk Hp Hs)
      as Hacc.
    cbv zeta in Hacc. rewrite Hconv in Hacc. apply Hacc. exact Hd.
Qed.

Lemma import_keyonly_base64_example :
  @detectFormat [raw_key_base58; raw_key_base64] = keyonly
  /\ {| name := str "imported_wallet2"; publicKey := str "A2";
        privateKey := str "2" |}
     ∈ (@processWallets toyCodec [raw_key_base58; raw_key_base64] false).1.
Proof.
  assert (H : detectFormat [raw_key_base58; raw_key_base64] = keyonly)
    by reflexivity.
  split; [exact H|].
  refine (proj2 (proj2 (proj2
            (import_shape_detected_from_first_record toyCodec
               [raw_key_base58; raw_key_base64] false)))
            H 1%nat raw_key_base64 (str "A2") (str "2==")
            eq_refl eq_refl eq_refl _).
  eexists. split; reflexivity.
Defined.

(** The other branch of [importWallets], taken when the existing wallets
    are not kept, saves the processed records as they are: two records of
    the file that share a name are both stored. *)
Example import_replace_stores_processed_records :
  (@importWallets toyCodec [raw_alice; raw_alice_again] false false [bob] false).1
  = [alice; alice_again]
  /\ (@importWallets toyCodec [raw_alice; raw_alice_again] false false [bob] true).1
     = [bob; alice].
Proof. split; vm_compute; reflexivity. Qed.

End ImporterFacts.

(* ================================================================= *)
(** ** Selecting wallets by position *)

Module SelectionFacts.
Import Selector SelectorFacts Importer.

(** *** What a selector parses to *)

Lemma parseWalletIndices_strict (walletRangeStr : option JsString) :
  StronglySorted Z.lt (parseWalletIndices walletRangeStr).
Proof.
  destruct walletRangeStr as [[|c s]|]; simpl; try constructor.
  apply sort_ascending_strict, Set_values_NoDup.
Qed.

Lemma parseWalletIndices_elem (selector : JsString) (n : Z) :
  n ∈ parseWalletIndices (Some selector)
  <-> exists token, token ∈ split comma selector /\ token_refers token n.
Proof.
  destruct selector as [|c s].
  - simpl. rewrite elem_of_nil. split; [tauto|].
    intros (token & Htok & Href).
    apply list_elem_of_singleton in Htok as ->.
    destruct Href as [_ Hp|? ? ? ? ? Hc]; [|discriminate Hc].
    vm_compute in Hp. discriminate Hp.
  - unfold parseWalletIndices.
    rewrite sort_ascending_elem, Set_values_elem, parse_parts_elem, elem_of_nil.
    tauto.
Qed.

Lemma strict_sorted_unique (l1 l2 : list Z) :
  StronglySorted Z.lt l1 -> StronglySorted Z.lt l2 ->
  (forall n, n ∈ l1 <-> n ∈ l2) -> l1 = l2.
Proof.
  intros H1. revert l2.
  induction H1 as [|x l1 Hs1 IH Hx]; intros l2 H2 Heq.
  - destruct l2 as [|y l2]; [reflexivity|].
    exfalso. apply (not_elem_of_nil y). apply Heq. left.
  - destruct H2 as [|y l2 Hs2 Hy].
    + exfalso. apply (not_elem_of_nil x). apply Heq. left.
    + rewrite Forall_forall in Hx, Hy.
      assert (x = y).
      { assert (Hxin : x ∈ y :: l2) by (apply Heq; left).
        assert (Hyin : y ∈ x :: l1) by (apply Heq; left).
        apply elem_of_cons in Hxin as [?|Hxin]; [assumption|].
        apply elem_of_cons in Hyin as [?|Hyin]; [congruence|].
        specialize (Hx y Hyin). specialize (Hy x Hxin). lia. }
      subst y. f_equal. apply IH; [exact Hs2|].
      intros n. split; intros Hn.
      * assert (Hin : n ∈ x :: l2) by (apply Heq; right; exact Hn).
        apply elem_of_cons in Hin as [->|Hin]; [|exact Hin].
        specialize (Hx x Hn). lia.
      * assert (Hin : n ∈ x :: l1) by (apply Heq; right; exact Hn).
        apply elem_of_cons in Hin as [->|Hin]; [|exact Hin].
        specialize (Hy x Hn). lia.
Qed.

(** X1. The result of the parser depends only on which tokens the
    selector holds, not on their order or on how often one is written:
    two selectors with the same tokens parse to the same list. *)
Theorem parseWalletIndices_same_tokens :
  forall selector1 selector2 : JsString,
    (forall token,
        token ∈ split comma selector1 <-> token ∈ split comma selector2) ->
    parseWalletIndices (Some selector1) = parseWalletIndices (Some selector2).
Proof.
  intros s1 s2 Htok. apply strict_sorted_unique.
  - apply parseWalletIndices_strict.
  - apply parseWalletIndices_strict.
  - intros n. rewrite !parseWalletIndices_elem.
    split; intros (token & Hin & Href); exists token;
      (split; [apply Htok; exact Hin | exact Href]).
Qed.

Lemma parseWalletIndices_same_tokens_example :
  (forall token,
      token ∈ split comma (str "5-7,1,1") <-> token ∈ split comma (str "1,5-7"))
  /\ parseWalletIndices (Some (str "5-7,1,1"))
     = parseWalletIndices (Some (str "1,5-7")).
Proof.
  assert (H : forall token,
             token ∈ split comma (str "5-7,1,1")
             <-> token ∈ split comma (str "1,5-7")).
  { intros token. vm_compute split.
    rewrite !elem_of_cons, !elem_of_nil. tauto. }
  split; [exact H|].
  exact (parseWalletIndices_same_tokens (str "5-7,1,1") (str "1,5-7") H).
Defined.

(** *** A range of two numerals *)

Lemma split_at_separator (sep : N) (before after : JsString) :
  sep ∉ before ->
  split sep (before ++ sep :: after) = before :: split sep after.
Proof.
  induction before as [|c before IH]; simpl.
  - intros _. rewrite N.eqb_refl. reflexivity.
  - rewrite not_elem_of_cons. intros [Hc Hb].
    destruct (N.eqb_spec c sep); [congruence|]. rewrite (IH Hb). reflexivity.
Qed.

Lemma toString_digits (n : nat) : Forall is_digit (toString n).
Proof. apply uint_codes_digits. Qed.

Lemma parseInt_trim_toString (n : nat) :
  parseInt (trim (toString n)) = Some (Z.of_nat n).
Proof.
  rewrite (trim_digits _ (toString_digits n)).
  rewrite (parseInt_digits _ (toString_digits n)).
  apply parseDigits_toString.
Qed.

Lemma of_nat_seq_strict (a len : nat) :
  StronglySorted Z.lt (Z.of_nat <$> seq a len).
Proof.
  revert a. induction len as [|len IH]; intros a; simpl; constructor.
  - apply IH.
  - apply Forall_forall. intros n Hn.
    apply list_elem_of_fmap in Hn as (k & -> & Hk).
    apply elem_of_seq in Hk. lia.
Qed.

Lemma of_nat_seq_elem (a len : nat) (n : Z) :
  n ∈ Z.of_nat <$> seq a len
  <-> Z.of_nat a <= n < Z.of_nat a + Z.of_nat len.
Proof.
  rewrite list_elem_of_fmap. split.
  - intros (k & -> & Hk). apply elem_of_seq in Hk. lia.
  - intros Hn. exists (Z.to_nat n). split; [lia|].
    apply elem_of_seq. lia.
Qed.

(** X2. A range written as two decimal numerals, low-high, parses to every
    integer from low to high in ascending order, and to nothing when low
    is greater than high (numerals that a double holds exactly). *)
Theorem parseWalletIndices_range_of_numerals :
  forall low high : nat,
    Z.of_nat low < 2 ^ 53 -> Z.of_nat high < 2 ^ 53 ->
    parseWalletIndices (Some (toString low ++ hyphen :: toString high))
    = Z.of_nat <$> seq low (S high - low).
Proof.
  intros low high _ _.
  set (token := toString low ++ hyphen :: toString high).
  assert (Hlow : hyphen ∉ toString low)
    by (apply digits_exclude; [apply toString_digits | unfold is_digit, hyphen; lia]).
  assert (Hhigh : hyphen ∉ toString high)
    by (apply digits_exclude; [apply toString_digits | unfold is_digit, hyphen; lia]).
  assert (Hcomma : comma ∉ token).
  { unfold token. rewrite elem_of_app, elem_of_cons.
    intros [H|[H|H]]; [|discriminate H|];
      revert H; apply digits_exclude;
      try apply toString_digits; unfold is_digit, comma; lia. }
  assert (Hsplit : split hyphen token = [toString low; toString high]).
  { unfold token. rewrite split_at_separator by exact Hlow.
    rewrite split_without_separator by exact Hhigh. reflexivity. }
  assert (Hinc : includes token hyphen = true).
  { destruct (includes token hyphen) eqn:E; [reflexivity|].
    apply includes_false in E. exfalso. apply E. unfold token.
    rewrite elem_of_app, elem_of_cons. auto. }
  apply strict_sorted_unique.
  - apply parseWalletIndices_strict.
  - apply of_nat_seq_strict.
  - intros n. rewrite parseWalletIndices_elem, of_nat_seq_elem.
    rewrite split_without_separator by exact Hcomma. split.
    + intros (t & Ht & Href). apply list_elem_of_singleton in Ht as ->.
      destruct Href as [Hc _|l h m a b _ Hs Ha Hb Hn]; [congruence|].
      rewrite Hsplit in Hs. injection Hs as <- <- <-.
      rewrite parseInt_trim_toString in Ha, Hb.
      injection Ha as <-. injection Hb as <-. lia.
    + intros Hn. exists token. split; [left|].
      eapply refers_range; eauto using parseInt_trim_toString. lia.
Qed.

Lemma parseWalletIndices_range_example :
  Z.of_nat 3 < 2 ^ 53 /\ Z.of_nat 6 < 2 ^ 53
  /\ parseWalletIndices (Some (toString 3 ++ hyphen :: toString 6))
     = Z.of_nat <$> seq 3 (S 6 - 3).
Proof.
  assert (H3 : Z.of_nat 3 < 2 ^ 53) by (vm_compute; reflexivity).
  assert (H6 : Z.of_nat 6 < 2 ^ 53) by (vm_compute; reflexivity).
  split; [exact H3|]. split; [exact H6|].
  exact (parseWalletIndices_range_of_numerals 3 6 H3 H6).
Defined.

(** *** The wallets a list of positions selects *)

Lemma walletAt_Some (wallets : list Wallet) (i : Z) (w : Wallet) :
  walletAt wallets i = Some w
  <-> 1 <= i /\ wallets !! Z.to_nat (i - 1) = Some w.
Proof.
  unfold walletAt. destruct (Z.ltb_spec (i - 1) 0).
  - split; [discriminate | lia].
  - split; [intros H'; split; [lia | exact H'] | tauto].
Qed.

Lemma walletAt_in_range (wallets : list Wallet) (i : Z) :
  is_Some (walletAt wallets i) <-> 1 <= i <= Z.of_nat (length wallets).
Proof.
  split.
  - intros [w Hw]. apply walletAt_Some in Hw as [Hi Hw].
    apply lookup_lt_Some in Hw. lia.
  - intros Hi. destruct (lookup_lt_is_Some_2 wallets (Z.to_nat (i - 1)))
      as [w Hw]; [lia|].
    exists w. apply walletAt_Some. split; [lia | exact Hw].
Qed.

Lemma ascending_positions_sublist (wallets : list Wallet) (walletIndices : list Z) :
  StronglySorted Z.lt walletIndices ->
  forall k : nat,
    Forall (fun i => 1 <= i -> Z.of_nat k <= i - 1) walletIndices ->
    omap (walletAt wallets) walletIndices `sublist_of` drop k wallets.
Proof.
  induction 1 as [|i rest Hs IH Hi]; intros k Hk; simpl.
  - apply sublist_nil_l.
  - apply Forall_cons in Hk as [Hki Hkrest].
    destruct (walletAt wallets i) as [w|] eqn:Hw; [|apply IH; exact Hkrest].
    apply walletAt_Some in Hw as [H1 Hw]. specialize (Hki H1).
    set (p := Z.to_nat (i - 1)) in *.
    assert (Hdrop : drop k wallets
                    = take (p - k) (drop k wallets) ++ w :: drop (S p) wallets).
    { rewrite <- (take_drop (p - k) (drop k wallets)) at 1. f_equal.
      rewrite drop_drop. replace (k + (p - k))%nat with p by lia.
      apply drop_S. exact Hw. }
    rewrite Hdrop. apply sublist_inserts_l. apply sublist_skip.
    apply IH. rewrite Forall_forall in Hi |- *. intros j Hj _.
    specialize (Hi j Hj). lia.
Qed.

(** X3. The wallets a selector picks are a sublist of the store: whatever
    the selector, the target list of a command holds wallets of the store
    in store order, none of them twice; positions outside the store are
    left out, and an empty or absent selector picks every wallet. *)
Theorem selected_wallets_sublist_of_store :
  forall (wallets : list Wallet) (walletRangeStr : option JsString),
    selectWallets wallets (parseWalletIndices walletRangeStr)
      `sublist_of` wallets
    /\ (parseWalletIndices walletRangeStr = [] ->
        selectWallets wallets (parseWalletIndices walletRangeStr) = wallets)
    /\ (parseWalletIndices walletRangeStr <> [] ->
        length (selectWallets wallets (parseWalletIndices walletRangeStr))
        = length (filter (fun i => 1 <= i <= Z.of_nat (length wallets))
                    (parseWalletIndices walletRangeStr))).
Proof.
  intros wallets walletRangeStr.
  pose proof (parseWalletIndices_strict walletRangeStr) as Hs.
  destruct (parseWalletIndices walletRangeStr) as [|i rest] eqn:Hp.
  - split; [reflexivity|]. split; [reflexivity | congruence].
  - split; [|split; [discriminate|]].
    + unfold selectWallets.
      change wallets with (drop 0 wallets) at 2.
      apply ascending_positions_sublist; [exact Hs|].
      apply Forall_forall. intros j _ Hj. lia.
    + intros _. unfold selectWallets. clear Hs Hp.
      generalize (i :: rest) as l. clear i rest.
      induction l as [|j l IH]; [reflexivity|]. simpl.
      rewrite filter_cons.
      destruct (decide (1 <= j <= Z.of_nat (length wallets))) as [Hin|Hout].
      * apply walletAt_in_range in Hin as [w ->]. simpl. f_equal. exact IH.
      * destruct (walletAt wallets j) as [w|] eqn:Hw; [|exact IH].
        exfalso. apply Hout, walletAt_in_range. eauto.
Qed.

Lemma selected_wallets_example :
  parseWalletIndices (Some (str "0,2,9")) <> []
  /\ length (selectWallets [alice; bob; carol]
               (parseWalletIndices (Some (str "0,2,9"))))
     = 1%nat.
Proof.
  assert (H : parseWalletIndices (Some (str "0,2,9")) <> [])
    by (vm_compute; discriminate).
  split; [exact H|].
  exact (eq_trans
           (proj2 (proj2 (selected_wallets_sublist_of_store [alice; bob; carol]
                            (Some (str "0,2,9")))) H)
           eq_refl).
Defined.

End SelectionFacts.

(* ================================================================= *)
(** ** The batched commands from the store to the last line *)

Module SendAllFacts.
Import Send SendFacts Batch BatchFacts.

Section sending.
Context `{sdk : Sdk}.

Lemma selectWallets_empty_store (walletIndices : list Z) :
  selectWallets [] walletIndices = [].
Proof.
  unfold selectWallets. destruct walletIndices as [|i rest]; [reflexivity|].
  generalize (i :: rest) as l. clear i rest.
  induction l as [|j l IH]; [reflexivity|]. simpl.
  unfold walletAt at 1. destruct (j - 1 <? 0); [exact IH|].
  rewrite lookup_nil. exact IH.
Qed.

Lemma sendSolToAll_run_reports mainWallet amount walletBatches (s : State) :
  exists s' reports,
    sendSolToAll_run mainWallet amount walletBatches s = (s', inr tt)
    /\ console s' = console s ++ concat reports ++ [Completed SOL amount]
    /\ reports_cover SOL amount (length walletBatches) 0 walletBatches reports.
Proof.
  unfold sendSolToAll_run, mbind, M_bind.
  destruct (sendSol_batches_run mainWallet amount
              (times amount LAMPORTS_PER_SOL) (length walletBatches)
              walletBatches 0%nat s) as (s1 & reports & -> & Hcon & Hcov).
  eexists _, reports. split; [reflexivity|].
  split; [simpl; rewrite Hcon, <- app_assoc; reflexivity | exact Hcov].
Qed.


End sending.

(** X4. [sendSolToAll] never throws.  On an empty store, or when no
    selected position lies in the store, it prints one line and leaves the
    network untouched.  Otherwise it announces ceil(N/10) transactions for
    its N target wallets and prints one report per planned batch, in
    order, the batches covering the target wallets in order, and then its
    closing line. *)
Theorem sendSolToAll_runs_to_completion :
  forall (sdk : Sdk) (mainWallet : Keypair) (wallets : list Wallet)
         (amount : Number) (walletIndices : list Z) (s : State),
    let targetWallets := selectWallets wallets walletIndices in
    let walletBatches := sendSolToAll_walletBatches targetWallets in
    exists s',
      sendSolToAll mainWallet wallets amount walletIndices s = (s', inr tt)
      /\ (wallets = [] ->
          s' = {| network := network s;
                  console := console s ++ [NoWalletsFound] |})
      /\ (wallets <> [] -> targetWallets = [] ->
          s' = {| network := network s;
                  console := console s ++ [NoValidTargetWallets] |})
      /\ (targetWallets <> [] ->
          concat walletBatches = targetWallets
          /\ exists reports,
              console s'
              = console s
                  ++ Sending SOL amount (length targetWallets)
                       (ceil_div (length targetWallets) 10)
                     :: concat reports ++ [Completed SOL amount]
              /\ reports_cover SOL amount (ceil_div (length targetWallets) 10)
                   0 walletBatches reports).
Proof.
  intros sdk mainWallet wallets amount walletIndices s targetWallets walletBatches.
  unfold sendSolToAll. fold targetWallets.
  destruct wallets as [|w0 wallets'] eqn:Hw.
  - eexists. split; [reflexivity|]. split; [reflexivity|].
    split; [congruence|]. intros Hne. exfalso. apply Hne.
    apply selectWallets_empty_store.
  - destruct targetWallets as [|t0 targets'] eqn:Ht.
    + eexists. split; [reflexivity|]. split; [discriminate|].
      split; [reflexivity | congruence].
    + subst walletBatches.
      destruct (walletBatches_spec 10 (Nat.lt_0_succ 9) (t0 :: targets'))
        as (Hcat & Hlen & _ & _).
      fold (sendSolToAll_walletBatches (t0 :: targets')) in Hcat, Hlen.
      unfold mbind, M_bind. cbn [console_log].
      match goal with
      | |- context [sendSolToAll_run mainWallet amount ?b ?s0] =>
          destruct (sendSolToAll_run_reports mainWallet amount b s0)
            as (s' & reports & -> & Hcon & Hcov)
      end.
      exists s'. split; [reflexivity|]. split; [discriminate|].
      split; [congruence|]. intros _. split; [exact Hcat|].
      exists reports. rewrite Hlen in Hcov. split; [|exact Hcov].
      rewrite Hcon. cbn [console]. rewrite Hlen, <- app_assoc. reflexivity.
Qed.

Lemma sendSolToAll_completion_example :
  selectWallets [Importer.alice; Importer.bob] [] <> []
  /\ concat (sendSolToAll_walletBatches
               (selectWallets [Importer.alice; Importer.bob] []))
     = selectWallets [Importer.alice; Importer.bob] [].
Proof.
  assert (H : selectWallets [Importer.alice; Importer.bob] [] <> [])
    by discriminate.
  split; [exact H|].
  destruct (sendSolToAll_runs_to_completion toySdk (str "main")
              [Importer.alice; Importer.bob] 1 [] (@Build_State toySdk 0%nat []))
    as (s' & _ & _ & _ & Hrun).
  exact (proj1 (Hrun H)).
Defined.


End SendAllFacts.

(* ================================================================= *)
(** ** More on the import merge *)

Module MergeFacts.
Import Importer ImporterFacts MergeNotions.

Lemma covered_app (merged more : list Wallet) (wallet : Wallet) :
  covered merged wallet -> covered (merged ++ more) wallet.
Proof. intros H. apply Exists_app. left. exact H. Qed.

Lemma covered_weaken_name (merged : list Wallet) (wallet : Wallet) :
  Exists (fun w => name w = name wallet) merged -> covered merged wallet.
Proof.
  intros H. eapply Exists_impl; [exact H|]. simpl. tauto.
Qed.

Lemma covered_weaken_address (merged : list Wallet) (wallet : Wallet) :
  Exists (fun w => publicKey w = publicKey wallet) merged ->
  covered merged wallet.
Proof.
  intros H. eapply Exists_impl; [exact H|]. simpl. tauto.
Qed.

Lemma merge_keep_covers (incoming merged : list Wallet) (count : nat)
    (out : list Line) :
  Forall (covered (fold_left (merge_step false) incoming (merged, count, out)).1.1)
    incoming.
Proof.
  revert merged count out.
  induction incoming as [|wallet incoming IH]; intros merged count out;
    cbn [fold_left]; [constructor|].
  destruct (merge_step_case false merged count out wallet)
    as (merged' & counted & lines & -> & Hcase).
  constructor; [|apply IH].
  destruct (merge_loop_keeps_existing incoming merged'
              (if counted then S count else count) (out ++ lines))
    as (appended & -> & _).
  apply covered_app.
  destruct Hcase as [? ? ? Ho| |? ? ? Ho| |]; try discriminate.
  - apply covered_weaken_name. assumption.
  - apply covered_weaken_address. assumption.
  - apply Exists_app. right. left. left. reflexivity.
Qed.

Lemma merge_keep_covered_unchanged (incoming merged : list Wallet) (count : nat)
    (out : list Line) :
  Forall (covered merged) incoming ->
  (fold_left (merge_step false) incoming (merged, count, out)).1
  = (merged, count).
Proof.
  revert out. induction incoming as [|wallet incoming IH]; intros out Hcov;
    cbn [fold_left]; [reflexivity|].
  apply Forall_cons in Hcov as [Hw Hrest].
  destruct (merge_step_case false merged count out wallet)
    as (merged' & counted & lines & -> & Hcase).
  destruct Hcase as [? ? ? Ho| |? ? ? Ho| |Hn Hk]; try discriminate.
  - apply IH. exact Hrest.
  - apply IH. exact Hrest.
  - exfalso. apply Exists_exists in Hw as (w & Hin & [Hw|Hw]).
    + rewrite Forall_forall in Hn. exact (Hn w Hin Hw).
    + rewrite Forall_forall in Hk. exact (Hk w Hin Hw).
Qed.

(** X6. With overwrite off the merge is idempotent: merging the same
    records again into the store the first merge left changes nothing and
    imports no record. *)
Theorem merge_without_overwrite_idempotent :
  forall existingWallets processedWallets : list Wallet,
    let first := mergeWallets false existingWallets processedWallets in
    (mergeWallets false first.1.1 processedWallets).1 = (first.1.1, 0%nat).
Proof.
  intros existingWallets processedWallets first.
  apply merge_keep_covered_unchanged. apply merge_keep_covers.
Qed.

(** *** What the merge does to sizes and addresses *)

Lemma overwritten_app (out lines : list Line) :
  overwritten (out ++ lines) = (overwritten out + overwritten lines)%nat.
Proof. unfold overwritten. rewrite filter_app, length_app. reflexivity. Qed.

Lemma merge_loop_size (overwrite : bool) (incoming merged : list Wallet)
    (count : nat) (out : list Line) :
  let result := fold_left (merge_step overwrite) incoming (merged, count, out) in
  (length result.1.1 + overwritten result.2 + count
   = length merged + overwritten out + result.1.2)%nat.
Proof.
  revert merged count out.
  induction incoming as [|wallet incoming IH]; intros merged count out;
    cbn [fold_left]; [simpl; lia|].
  destruct (merge_step_case overwrite merged count out wallet)
    as (merged' & counted & lines & -> & Hcase).
  specialize (IH merged' (if counted then S count else count) (out ++ lines)).
  cbv zeta in IH |- *. rewrite overwritten_app in IH.
  destruct Hcase; subst; rewrite ?length_app in *; simpl in *;
    unfold overwritten in *; simpl in *; lia.
Qed.

(** X7. A merge never shrinks the store: the store grows by exactly the
    records counted as imported that did not replace a stored record, so
    its new size lies between the old size and the old size plus the
    import count, and the import count is at most the number of incoming
    records. *)
Theorem merge_store_size :
  forall (overwrite : bool) (existingWallets processedWallets : list Wallet),
    let result := mergeWallets overwrite existingWallets processedWallets in
    (length result.1.1 + overwritten result.2
     = length existingWallets + result.1.2)%nat
    /\ (length existingWallets <= length result.1.1
        <= length existingWallets + result.1.2)%nat
    /\ (result.1.2 <= length processedWallets)%nat.
Proof.
  intros overwrite existingWallets processedWallets result.
  pose proof (merge_loop_size overwrite processedWallets existingWallets 0%nat [])
    as Hsize.
  pose proof (merge_loop_count overwrite processedWallets existingWallets 0%nat [])
    as Hcount.
  cbv zeta in Hsize, Hcount. fold (mergeWallets overwrite existingWallets
    processedWallets) in Hsize, Hcount. fold result in Hsize, Hcount.
  change (overwritten []) with 0%nat in Hsize.
  change (skipped []) with 0%nat in Hcount.
  assert (Hover : (overwritten result.2 <= result.1.2)%nat).
  { clear Hsize Hcount. subst result. unfold mergeWallets.
    assert (G : forall incoming merged count out,
               (overwritten out <= count)%nat ->
               let r := fold_left (merge_step overwrite) incoming
                          (merged, count, out) in
               (overwritten r.2 <= r.1.2)%nat).
    { induction incoming as [|wallet incoming IH]; intros merged count out Hle;
        cbn [fold_left]; [exact Hle|].
      destruct (merge_step_case overwrite merged count out wallet)
        as (merged' & counted & lines & -> & Hcase).
      apply IH. rewrite overwritten_app.
      destruct Hcase; unfold overwritten in *; simpl in *; lia. }
    apply G. unfold overwritten. simpl. lia. }
  repeat split; lia.
Qed.

Lemma fresh_address (wallets : list Wallet) (a : JsString) :
  Forall (fun w => publicKey w <> a) wallets <-> a ∉ publicKey <$> wallets.
Proof.
  rewrite Forall_forall, list_elem_of_fmap. split.
  - intros H (w & -> & Hw). exact (H w Hw eq_refl).
  - intros H w Hw Hn. apply H. exists w. auto.
Qed.

(** X8. With overwrite off the merge keeps the addresses of the store
    pairwise distinct: a record is appended only when no merged record has
    its address. *)
Theorem merge_without_overwrite_keeps_addresses_unique :
  forall existingWallets processedWallets : list Wallet,
    NoDup (publicKey <$> existingWallets) ->
    NoDup (publicKey <$>
             (mergeWallets false existingWallets processedWallets).1.1).
Proof.
  intros existingWallets processedWallets. unfold mergeWallets.
  generalize 0%nat at 1. generalize (@nil Line).
  revert existingWallets.
  induction processedWallets as [|wallet incoming IH];
    intros merged out count Hu; cbn [fold_left]; [exact Hu|].
  destruct (merge_step_case false merged count out wallet)
    as (merged' & counted & lines & -> & Hcase).
  apply IH.
  destruct Hcase as [? ? ? Ho| |? ? ? Ho| |Hn Hk]; try discriminate;
    try exact Hu.
  rewrite fmap_app. simpl. apply NoDup_app. split; [exact Hu|].
  split; [|apply NoDup_singleton].
  intros a Ha Ha'. apply list_elem_of_singleton in Ha' as ->.
  apply fresh_address in Hk. auto.
Qed.

Lemma merge_addresses_unique_example :
  NoDup (publicKey <$> [alice; bob])
  /\ NoDup (publicKey <$> (mergeWallets false [alice; bob] [alice_again; carol]).1.1).
Proof.
  assert (H : NoDup (publicKey <$> [alice; bob]))
    by (apply (bool_decide_unpack _); vm_compute; exact I).
  split; [exact H|].
  exact (merge_without_overwrite_keeps_addresses_unique [alice; bob]
           [alice_again; carol] H).
Defined.

(** With overwrite on, a record that takes the place of its namesake may
    bring the address of another stored record. *)
Example merge_overwrite_can_repeat_an_address :
  (mergeWallets true [alice; bob]
     [{| name := str "alice"; publicKey := str "A2"; privateKey := str "2" |}]).1.1
  = [{| name := str "alice"; publicKey := str "A2"; privateKey := str "2" |};
     bob].
Proof. vm_compute. reflexivity. Qed.

End MergeFacts.

(* ================================================================= *)
(** ** The store after an import *)

Module ImportStoreFacts.
Import Importer ImporterFacts MergeNotions MergeFacts.

Lemma merge_loop_elems (overwrite : bool) (incoming merged : list Wallet)
    (count : nat) (out : list Line) (stored : Wallet) :
  stored ∈ (fold_left (merge_step overwrite) incoming (merged, count, out)).1.1 ->
  stored ∈ merged \/ stored ∈ incoming.
Proof.
  revert merged count out.
  induction incoming as [|wallet incoming IH]; intros merged count out;
    cbn [fold_left]; [auto|].
  destruct (merge_step_case overwrite merged count out wallet)
    as (merged' & counted & lines & -> & Hcase).
  intros Hin. apply IH in Hin as [Hin|Hin]; [|right; right; exact Hin].
  destruct Hcase as [before same after _ -> _ _| |before same after _ _ -> _ _| |].
  - rewrite elem_of_app, elem_of_cons in Hin.
    rewrite elem_of_app, !elem_of_cons. tauto.
  - left. exact Hin.
  - rewrite elem_of_app, elem_of_cons in Hin.
    rewrite elem_of_app, !elem_of_cons. tauto.
  - left. exact Hin.
  - rewrite elem_of_app, list_elem_of_singleton in Hin.
    rewrite elem_of_cons. tauto.
Qed.

Lemma merge_keep_appends_in_order (incoming merged : list Wallet) (count : nat)
    (out : list Line) :
  exists appended,
    (fold_left (merge_step false) incoming (merged, count, out)).1.1
    = merged ++ appended
    /\ appended `sublist_of` incoming
    /\ Forall (fun w => ~ covered merged w) appended.
Proof.
  revert merged count out.
  induction incoming as [|wallet incoming IH]; intros merged count out;
    cbn [fold_left].
  - exists []. rewrite app_nil_r. split; [reflexivity|].
    split; [constructor | constructor].
  - destruct (merge_step_case false merged count out wallet)
      as (merged' & counted & lines & -> & Hcase).
    destruct (IH merged' (if counted then S count else count) (out ++ lines))
      as (appended & Heq & Hsub & Hfresh).
    destruct Hcase as [? ? ? Ho| |? ? ? Ho| |Hn Hk]; try discriminate.
    + exists appended. split; [exact Heq|].
      split; [apply sublist_cons; exact Hsub | exact Hfresh].
    + exists appended. split; [exact Heq|].
      split; [apply sublist_cons; exact Hsub | exact Hfresh].
    + exists (wallet :: appended). rewrite Heq, <- app_assoc.
      split; [reflexivity|]. split; [apply sublist_skip; exact Hsub|].
      constructor.
      * intros Hcov. apply Exists_exists in Hcov as (w & Hin & [Hw|Hw]).
        -- rewrite Forall_forall in Hn. exact (Hn w Hin Hw).
        -- rewrite Forall_forall in Hk. exact (Hk w Hin Hw).
      * eapply Forall_impl; [exact Hfresh|]. intros w Hw Hcov.
        apply Hw. apply covered_app. exact Hcov.
Qed.

(** X9. With overwrite off the merge leaves the existing records in their
    places and appends behind them, in the order of the file, the incoming
    records it imports; each appended record has a name and an address that
    no existing record has, and their number is the import count. *)
Theorem merge_without_overwrite_appends_in_file_order :
  forall existingWallets processedWallets : list Wallet,
    exists appended,
      (mergeWallets false existingWallets processedWallets).1
      = (existingWallets ++ appended, length appended)
      /\ appended `sublist_of` processedWallets
      /\ Forall (fun w => ~ covered existingWallets w) appended.
Proof.
  intros existingWallets processedWallets.
  destruct (merge_keep_appends_in_order processedWallets existingWallets 0%nat [])
    as (appended & Heq & Hsub & Hfresh).
  destruct (merge_loop_keeps_existing processedWallets existingWallets 0%nat [])
    as (appended' & Heq' & Hcount).
  cbv zeta in Heq'. rewrite Heq in Heq'. apply app_inv_head in Heq'. subst appended'.
  exists appended. split; [|split; [exact Hsub | exact Hfresh]].
  unfold mergeWallets.
  destruct (fold_left (merge_step false) processedWallets
              (existingWallets, 0%nat, [])) as [[m c] o].
  simpl in *. subst. reflexivity.
Qed.

Section importing.
Context `{codec : Codec}.

Lemma processWallets_stored_valid (importedWallets : list Raw.wallet)
    (fixPublicKeys : bool) (stored : Wallet) :
  stored ∈ (processWallets importedWallets fixPublicKeys).1 ->
  derives stored (publicKey stored).
Proof.
  intros Hin. apply processWallets_pushed in Hin as (i & w & _ & Hp).
  eapply processWallet_stored; eauto.
Qed.

Lemma importWallets_store_elems (importedWallets : list Raw.wallet)
    (overwrite fixPublicKeys : bool) (existingWallets : list Wallet)
    (keepExisting : bool) (stored : Wallet) :
  stored ∈ (importWallets importedWallets overwrite fixPublicKeys
              existingWallets keepExisting).1 ->
  stored ∈ existingWallets
  \/ stored ∈ (processWallets importedWallets fixPublicKeys).1.
Proof.
  unfold importWallets.
  destruct (processWallets importedWallets fixPublicKeys)
    as [processedWallets out] eqn:Hp.
  destruct processedWallets as [|p0 processed']; [simpl; auto|].
  destruct (negb (bool_decide (existingWallets = [])) && negb keepExisting).
  - simpl. auto.
  - unfold mergeWallets.
    destruct (fold_left (merge_step overwrite) (p0 :: processed')
                (existingWallets, 0%nat, [])) as [[m c] o] eqn:Hm.
    simpl. intros Hin.
    apply (merge_loop_elems overwrite (p0 :: processed') existingWallets 0%nat []).
    rewrite Hm. exact Hin.
Qed.


End importing.

(** X10. After an import, every record of the store is a record the store
    already held or a record of the file that passed validation, whose key
    decodes to the keypair of the address stored with it: an import never
    stores a record whose address and key disagree. *)
Theorem import_stores_only_validated_records :
  forall (codec : Codec) (importedWallets : list Raw.wallet)
         (overwrite fixPublicKeys : bool) (existingWallets : list Wallet)
         (keepExisting : bool) (stored : Wallet),
    stored ∈ (importWallets importedWallets overwrite fixPublicKeys
                existingWallets keepExisting).1 ->
    stored ∈ existingWallets
    \/ (derives stored (publicKey stored)
        /\ exists i wallet,
            importedWallets !! i = Some wallet
            /\ (processWallet (detectFormat importedWallets) fixPublicKeys
                  i wallet).1 = Some stored).
Proof.
  intros codec importedWallets overwrite fixPublicKeys existingWallets
    keepExisting stored Hin.
  apply importWallets_store_elems in Hin as [Hin|Hin]; [left; exact Hin|].
  right. split; [eapply processWallets_stored_valid; eauto|].
  apply processWallets_pushed. exact Hin.
Qed.

Lemma import_stores_validated_example :
  carol ∈ (@importWallets toyCodec [raw_alice; raw_bob_wrong_address; raw_carol]
             false false [bob] true).1
  /\ (carol ∈ [bob] \/ @derives toyCodec carol (publicKey carol)).
Proof.
  assert (H : carol ∈ (@importWallets toyCodec
                         [raw_alice; raw_bob_wrong_address; raw_carol]
                         false false [bob] true).1)
    by (vm_compute; do 2 right; left).
  split; [exact H|].
  destruct (import_stores_only_validated_records toyCodec
              [raw_alice; raw_bob_wrong_address; raw_carol]
              false false [bob] true carol H) as [Hold|[Hvalid _]];
    [left; exact Hold | right; exact Hvalid].
Defined.



End ImportStoreFacts.

(* ================================================================= *)
(** ** Creating wallets *)

Module CreateFacts.
Import Importer ImporterFacts SelectorFacts CreateNotions.









(** A kept store in which a wallet already bears a name to come: that
    step creates nothing, and the loop goes on. *)
Example createWallets_skips_taken_name :
  name <$> (createWallets (str "wallet") (fun _ => (str "A", str "k")) 2
              [{| name := str "wallet2"; publicKey := str "A0";
                  privateKey := str "0" |}] true).2
  = [str "wallet3"].
Proof. vm_compute. reflexivity. Qed.

End CreateFacts.

(* ================================================================= *)
(** ** Collecting SOL wallet by wallet *)

Module CollectRunFacts.
Import Collect CollectFacts CollectRun.

Section collecting.
Context `{sdk : Sdk}.

(** One wallet under its [catch]: the block never throws, leaves one
    report, and hands at most one transaction to the network, a single
    transfer to the main wallet of the amount the policy gives on a balance
    above the threshold. *)
Lemma collectSol_wallet_guarded mainWallet leaveAmountLamports wallet (s : State) :
  exists s' lines new,
    try_catch (collectSol_try mainWallet leaveAmountLamports wallet)
      (fun error => console_log (ErrorCollecting (name wallet) error)) s
    = (s', inr tt)
    /\ console s' = console s ++ lines
    /\ wallet_report wallet lines
    /\ submitted s' = submitted s ++ new
    /\ (length new <= 1)%nat
    /\ (forall transferAmount signature,
          lines = [Collected transferAmount (name wallet);
                   TransactionSignature signature] ->
          exists source,
            new = [[(source, Keypair_publicKey mainWallet, transferAmount)]])
    /\ Forall (fun transaction =>
                 exists source balance rent,
                   transaction
                   = [(source, Keypair_publicKey mainWallet,
                       balance - leaveAmountLamports - 5000)]
                   /\ rent + 5000 + leaveAmountLamports < balance
                   /\ exists n n',
                       getMinimumBalanceForRentExemption 0 n = (n', inr rent))
         new.
Proof.
  unfold try_catch, collectSol_try, mbind, M_bind, call, await.
  destruct (bs58_decode (privateKey wallet)) as [e|key].
  { eexists _, [_], []. split; [reflexivity|]. simpl.
    rewrite app_nil_r. repeat split; auto.
    - right. right. eauto.
    - intros ? ? [=]. }
  destruct (Keypair_fromSecretKey key) as [e|sourceKeypair].
  { eexists _, [_], []. split; [reflexivity|]. simpl.
    rewrite app_nil_r. repeat split; auto.
    - right. right. eauto.
    - intros ? ? [=]. }
  destruct (getBalance (Keypair_publicKey sourceKeypair) (network s))
    as [n1 [e|balance]].
  { eexists _, [_], []. split; [reflexivity|]. simpl.
    rewrite app_nil_r. repeat split; auto.
    - right. right. eauto.
    - intros ? ? [=]. }
  cbn [network console submitted].
  destruct (getMinimumBalanceForRentExemption 0 n1) as [n2 [e|rent]] eqn:Hrent.
  { eexists _, [_], []. split; [reflexivity|]. simpl.
    rewrite app_nil_r. repeat split; auto.
    - right. right. eauto.
    - intros ? ? [=]. }
  cbn [network console submitted].
  destruct (collectSol_plan balance leaveAmountLamports rent)
    as [|transferAmount] eqn:Hplan.
  { eexists _, [_], []. split; [reflexivity|]. simpl.
    rewrite app_nil_r. repeat split; auto.
    - left. eauto.
    - intros ? ? [=]. }
  apply collectionPlan_withdraw in Hplan as [Hgt ->]. unfold transferFee in *.
  unfold submit. cbn [network console submitted].
  destruct (sendAndConfirmTransaction _ [sourceKeypair] n2) as [n3 [e|signature]].
  - eexists _, [_], [_]. split; [reflexivity|]. simpl.
    repeat split; auto.
    + right. right. eauto.
    + intros ? ? [=].
    + constructor; [|constructor].
      exists (Keypair_publicKey sourceKeypair), balance, rent. eauto 6.
  - eexists _, [_; _], [_]. split; [reflexivity|]. simpl.
    split; [rewrite <- app_assoc; reflexivity|].
    repeat split; auto.
    + right. left. eauto.
    + intros ? ? [= <- _]. eauto.
    + constructor; [|constructor].
      exists (Keypair_publicKey sourceKeypair), balance, rent. eauto 6.
Qed.

End collecting.

(** X14. [collectSol] never throws.  On an empty store or an empty
    selection it prints one line and touches nothing.  Otherwise it prints
    one report per source wallet, in order: skipped for insufficient
    balance, collected with the amount and the signature, or failed with
    the reason; a wallet that fails does not stop the wallets after it.
    Each wallet hands at most one transaction to the network, and every
    amount reported as collected is the amount of a transaction
    submitted. *)
Theorem collectSol_reports_every_wallet :
  forall (sdk : Sdk) (mainWallet : Keypair) (leaveAmountLamports : Z)
         (sourceWallets : list Wallet) (s : State),
    exists s' reports new,
      collectSol_loop mainWallet leaveAmountLamports sourceWallets s
      = (s', inr tt)
      /\ console s' = console s ++ concat reports
      /\ Forall2 wallet_report sourceWallets reports
      /\ submitted s' = submitted s ++ new
      /\ (length new <= length sourceWallets)%nat
      /\ (forall transferAmount walletName,
            Collected transferAmount walletName ∈ concat reports ->
            exists source,
              [(source, Keypair_publicKey mainWallet, transferAmount)] ∈ new).
Proof.
  intros sdk mainWallet leaveAmountLamports sourceWallets.
  induction sourceWallets as [|wallet rest IH]; intros s.
  - exists s, [], []. simpl. rewrite !app_nil_r.
    repeat split; auto. intros ? ? H. inversion H.
  - cbn [collectSol_loop]. unfold mbind at 1, M_bind at 1.
    destruct (collectSol_wallet_guarded mainWallet leaveAmountLamports wallet s)
      as (s1 & lines & new1 & -> & Hcon1 & Hrep & Hsub1 & Hlen1 & Hcol & _).
    destruct (IH s1) as (s' & reports & new & -> & Hcon & Hreps & Hsub & Hlen & Hcols).
    exists s', (lines :: reports), (new1 ++ new).
    split; [reflexivity|].
    split; [simpl; rewrite Hcon, Hcon1, <- app_assoc; reflexivity|].
    split; [constructor; assumption|].
    split; [rewrite Hsub, Hsub1, <- app_assoc; reflexivity|].
    split; [rewrite length_app; simpl; lia|].
    intros amount walletName Hin. simpl in Hin.
    apply elem_of_app in Hin as [Hin|Hin].
    + destruct Hrep as [(b & ->)|[(a & sig & ->)|(e & ->)]].
      * apply list_elem_of_singleton in Hin. discriminate Hin.
      * apply elem_of_cons in Hin as [Hin|Hin];
          [|apply list_elem_of_singleton in Hin; discriminate Hin].
        injection Hin as -> ->.
        destruct (Hcol a sig eq_refl) as (source & ->).
        exists source. apply elem_of_app. left. left.
      * apply list_elem_of_singleton in Hin. discriminate Hin.
    + destruct (Hcols amount walletName Hin) as (source & Hsrc).
      exists source. apply elem_of_app. right. exact Hsrc.
Qed.




(** Two wallets on the small network: the first holds exactly the
    threshold and is skipped, the second is collected for its balance less
    the fee. *)
Example collectSol_skips_at_threshold :
  let rich := {| name := str "rich"; publicKey := str "R";
                 privateKey := str "2000000" |} in
  let poor := {| name := str "poor"; publicKey := str "P";
                 privateKey := str "895880" |} in
  @collectSol toySdk (str "main") [poor; rich] [] 0
    (@Build_State toySdk 0%nat [] [])
  = (@Build_State toySdk 1%nat
       [@Collecting toySdk 2;
        @SkippingInsufficientBalance toySdk (str "poor") 895880;
        @Collected toySdk 1995000 (str "rich");
        @TransactionSignature toySdk 0%nat]
       [[(str "2000000", str "main", 1995000)]],
     inr tt).
Proof. vm_compute. reflexivity. Qed.

End CollectRunFacts.

(* ================================================================= *)
(** ** The commands that work wallet by wallet *)

Module PerWalletFacts.
Import PerWallet.

Section commands.
Context `{sdk : Sdk}.

(** A loop whose every iteration is guarded: it returns, the console
    grows by one report per wallet, in order, and the calls of [transfer]
    are those of the iterations. *)
Lemma for_each_guarded_run (report : Wallet -> list Line -> Prop)
    (allowed : TransferCall -> Prop)
    (body : Wallet -> M unit) (handler : Wallet -> Error -> M unit) :
  (forall wallet s, exists s' lines new,
      try_catch (body wallet) (handler wallet) s = (s', inr tt)
      /\ console s' = console s ++ lines
      /\ report wallet lines
      /\ transfers s' = transfers s ++ new
      /\ (length new <= 1)%nat
      /\ Forall allowed new) ->
  forall wallets s, exists s' reports new,
    for_each_guarded wallets body handler s = (s', inr tt)
    /\ console s' = console s ++ concat reports
    /\ Forall2 report wallets reports
    /\ transfers s' = transfers s ++ new
    /\ (length new <= length wallets)%nat
    /\ Forall allowed new.
Proof.
  intros Hguard wallets. induction wallets as [|wallet rest IH]; intros s.
  - exists s, [], []. simpl. rewrite !app_nil_r. repeat split; auto.
  - cbn [for_each_guarded]. unfold mbind at 1, M_bind at 1.
    destruct (Hguard wallet s)
      as (s1 & lines & new1 & -> & Hcon1 & Hrep & Htr1 & Hlen1 & Hall1).
    destruct (IH s1) as (s' & reports & new & -> & Hcon & Hreps & Htr & Hlen & Hall).
    exists s', (lines :: reports), (new1 ++ new).
    split; [reflexivity|].
    split; [simpl; rewrite Hcon, Hcon1, <- app_assoc; reflexivity|].
    split; [constructor; assumption|].
    split; [rewrite Htr, Htr1, <- app_assoc; reflexivity|].
    split; [rewrite length_app; simpl; lia|].
    apply Forall_app. split; assumption.
Qed.

Ltac thrown :=
  eexists _, [_], []; split; [reflexivity|]; simpl; rewrite ?app_nil_r;
  repeat split; auto; try constructor; eauto.

Lemma sendSol_wallet_guarded mainWallet amount amountLamports wallet (s : State) :
  exists s' lines new,
    try_catch (sendSol_try mainWallet amount amountLamports wallet)
      (fun error => console_log (ErrorSendingSol (name wallet) error)) s
    = (s', inr tt)
    /\ console s' = console s ++ lines
    /\ sendSol_report amount wallet lines
    /\ transfers s' = transfers s ++ new
    /\ (length new <= 1)%nat
    /\ Forall (fun _ => False) new.
Proof.
  unfold try_catch, sendSol_try, mbind, M_bind, call, await.
  destruct (new_PublicKey (publicKey wallet)) as [e|receiverPublicKey];
    [thrown; right; eauto|].
  destruct (Transaction_add _ _) as [e|transaction]; [thrown; right; eauto|].
  destruct (sendAndConfirmTransaction transaction [mainWallet] (network s))
    as [n [e|signature]]; [thrown; right; eauto|].
  eexists _, [_; _], []. split; [reflexivity|]. simpl.
  rewrite app_nil_r. split; [rewrite <- app_assoc; reflexivity|].
  repeat split; auto. left. eauto.
Qed.



End commands.

(** X16. [sendSol] never throws.  On an empty store or an empty
    selection it prints one line.  Otherwise it announces its target
    wallets and prints one report per target wallet, in order: sent, with
    the signature, or failed, with the reason; a wallet that fails does
    not stop the wallets after it. *)
Theorem sendSol_reports_every_wallet :
  forall (sdk : Sdk) (mainWallet : Keypair) (wallets : list Wallet)
         (amount : Number) (walletIndices : list Z) (s : State),
    let targetWallets := selectWallets wallets walletIndices in
    exists s',
      sendSol mainWallet wallets amount walletIndices s = (s', inr tt)
      /\ (wallets = [] -> console s' = console s ++ [NoWalletsFound])
      /\ (wallets <> [] -> targetWallets = [] ->
          console s' = console s ++ [NoValidTargetWallets])
      /\ (targetWallets <> [] ->
          exists reports,
            console s'
            = console s
                ++ SendingSol amount (length targetWallets) :: concat reports
            /\ Forall2 (sendSol_report amount) targetWallets reports).
Proof.
  intros sdk mainWallet wallets amount walletIndices s targetWallets.
  unfold sendSol. fold targetWallets.
  destruct wallets as [|w0 wallets'] eqn:Hw.
  - eexists. split; [reflexivity|]. split; [reflexivity|].
    split; [congruence|]. intros Hne. exfalso. apply Hne.
    apply SendAllFacts.selectWallets_empty_store.
  - destruct targetWallets as [|t0 targets'] eqn:Ht.
    + eexists. split; [reflexivity|]. split; [discriminate|].
      split; [reflexivity | congruence].
    + unfold mbind at 1, M_bind at 1. cbn [console_log].
      match goal with
      | |- context [for_each_guarded ?ws ?body ?handler ?s0] =>
          destruct (for_each_guarded_run (sendSol_report amount)
                      (fun _ => False) body handler
                      (sendSol_wallet_guarded mainWallet amount
                         (times amount LAMPORTS_PER_SOL)) ws s0)
            as (s' & reports & new & -> & Hcon & Hreps & _)
      end.
      exists s'. split; [reflexivity|]. split; [discriminate|].
      split; [congruence|]. intros _. exists reports.
      split; [|exact Hreps]. rewrite Hcon. cbn [console].
      rewrite <- app_assoc. reflexivity.
Qed.



(** Four wallets on the small network: one without a token account, one
    with a zero amount, one with 1500 units, and one whose key does not
    decode. *)
Example collectTokens_four_wallets :
  let wallet (n k : string) :=
    {| name := str n; publicKey := str n; privateKey := str k |} in
  @collectTokens toySdk (str "main")
    [wallet "none"%string "x"%string; wallet "zero"%string "0"%string;
     wallet "some"%string "1500"%string; wallet "bad"%string ""%string]
    (str "mint") []
    (@Build_State toySdk 0%nat [] [])
  = (@Build_State toySdk 1%nat
       [@CollectingTokens toySdk 4;
        @SkippingNoTokenAccount toySdk (str "none");
        @SkippingZeroTokenBalance toySdk (str "zero");
        @CollectedTokens toySdk (str "1500") (str "some");
        @TransactionSignature toySdk 0%nat;
        @ErrorCollectingTokens toySdk (str "bad") (str "Non-base58 character")]
       [(str "1500", str "main", inr (str "1500"))],
     inr tt).
Proof. vm_compute. reflexivity. Qed.

End PerWalletFacts.
